(** * BatchedIndexer: a shallow embedding of src/batched_indexer.cpp

    The indexer persists every chunk of a streamed write request in an
    ordered key-value store, keeps an in-memory registry of in-flight
    requests, hands completed requests to per-collection worker queues,
    garbage-collects abandoned uploads and serializes its state for
    snapshots.  This file embeds those operations as executable functions
    over an explicit indexer state and proves properties of them.

    Conventions of the embedding:
    - machine integers are [Z] with their wrap-around written out;
    - keys are lists of bytes in bytewise order, the store is the list of
      its entries in ascending key order;
    - a call that has undefined behaviour in C++ (a null or uninitialised
      pointer dereferenced, a division by zero) or throws has no result;
    - one thread is followed at a time: the quit flag is given by the
      values a worker reads after each chunk, and the other threads seen
      by a waiting [enqueue] by what they do during each of its sleeps;
    - messages to the HTTP server, handler calls and sleeps are recorded
      in a trace of events kept with the state. *)

From Stdlib Require Import ZArith List Lia Bool String Ascii.
From Stdlib Require Import DecimalString DecimalZ DecimalPos.
From stdpp Require Import base option list gmap sorting strings.

#[local] Open Scope Z_scope.

(** ** Machine integers *)

Module Int.

Definition UINT32_MAX : Z := 4294967295.
Definition wrap32 (z : Z) : Z := z mod 4294967296.
Definition wrap64 (z : Z) : Z := z mod 18446744073709551616.
(** Two's complement wrap-around of [int64_t]. *)
Definition wrap_int64 (z : Z) : Z :=
  (z + 9223372036854775808) mod 18446744073709551616 - 9223372036854775808.

Definition is_uint32 (z : Z) : Prop := 0 <= z < 4294967296.
Definition is_uint64 (z : Z) : Prop := 0 <= z < 18446744073709551616.
Definition is_int64 (z : Z) : Prop :=
  - 9223372036854775808 <= z < 9223372036854775808.

End Int.

(** ** Byte strings and their order

    Keys of the store are C++ [std::string]s compared bytewise; a byte is
    a [Z] in [0, 256). *)

Module Bytes.

Definition bytes := list Z.

Fixpoint compare (a b : bytes) : comparison :=
  match a, b with
  | [], [] => Eq
  | [], _ :: _ => Lt
  | _ :: _, [] => Gt
  | x :: a', y :: b' =>
      match Z.compare x y with
      | Eq => compare a' b'
      | c => c
      end
  end.

Definition ltb (a b : bytes) : bool :=
  match compare a b with Lt => true | _ => false end.
Definition leb (a b : bytes) : bool :=
  match compare a b with Gt => false | _ => true end.

(** [starts_with k p]: the [Slice::starts_with] test of the scan loop. *)
Fixpoint starts_with (k p : bytes) {struct p} : bool :=
  match p, k with
  | [], _ => true
  | _ :: _, [] => false
  | y :: p', x :: k' => (x =? y) && starts_with k' p'
  end.

End Bytes.

(** ** Chunk keys *)

Module Keys.
Import Int.

(** Modelled from the spec: [StringUtils::serialize_uint32_t] is not part
    of the sources; the spec fixes it as the big-endian encoding of a
    32-bit number, most significant byte first. *)
Definition serialize_uint32_t (n : Z) : Bytes.bytes :=
  [ Z.land (Z.shiftr n 24) 255; Z.land (Z.shiftr n 16) 255;
    Z.land (Z.shiftr n 8) 255; Z.land n 255 ].

(** Modelled from the spec: [StringUtils::serialize_uint64_t] is not part
    of the sources; the spec fixes it as the big-endian encoding of a
    64-bit number. *)
Definition serialize_uint64_t (n : Z) : Bytes.bytes :=
  [ Z.land (Z.shiftr n 56) 255; Z.land (Z.shiftr n 48) 255;
    Z.land (Z.shiftr n 40) 255; Z.land (Z.shiftr n 32) 255;
    Z.land (Z.shiftr n 24) 255; Z.land (Z.shiftr n 16) 255;
    Z.land (Z.shiftr n 8) 255; Z.land n 255 ].

(** [get_req_prefix_key]: the log prefix, the request id and ["_"]. *)
Definition get_req_prefix_key (RAFT_REQ_LOG_PREFIX : Bytes.bytes) (req_id : Z)
  : Bytes.bytes :=
  RAFT_REQ_LOG_PREFIX ++ serialize_uint64_t req_id ++ [95].

End Keys.

(** ** The chunk store

    Modelled from the spec: the [Store] class (a RocksDB wrapper) is not
    part of the sources.  The spec describes it as a lexicographically
    ordered key-value store with [insert], a [scan] that positions an
    ordered iterator at the first key not below its argument, and a
    [delete_range] whose upper bound is inclusive.  The store is kept as
    the list of its entries in ascending key order. *)

Module Store.
Section store.
Context {V : Type}.

Definition t := list (Bytes.bytes * V).

Fixpoint insert (k : Bytes.bytes) (v : V) (st : t) : t :=
  match st with
  | [] => [(k, v)]
  | (k', v') :: st' =>
      match Bytes.compare k k' with
      | Lt => (k, v) :: st
      | Eq => (k, v) :: st'
      | Gt => (k', v') :: insert k v st'
      end
  end.

(** The entries an iterator opened at [lo] walks over, in order. *)
Fixpoint scan (lo : Bytes.bytes) (st : t) : t :=
  match st with
  | [] => []
  | (k, v) :: st' => if Bytes.ltb k lo then scan lo st' else st
  end.

Definition in_range (lo hi k : Bytes.bytes) : bool :=
  Bytes.leb lo k && Bytes.leb k hi.

Definition delete_range (lo hi : Bytes.bytes) (st : t) : t :=
  List.filter (fun e => negb (in_range lo hi (fst e))) st.

(** Keys strictly ascending. *)
Fixpoint sortedb (st : t) : bool :=
  match st with
  | [] => true
  | (k, _) :: st' =>
      match st' with
      | [] => true
      | (k', _) :: _ => Bytes.ltb k k' && sortedb st'
      end
  end.

Definition wf (st : t) : Prop := sortedb st = true.

(** The entries of the iterator for which the worker's loop condition
    [iter->key().starts_with(prefix)] holds: the loop stops at the first
    key without the prefix. *)
Fixpoint while_prefix (prefix : Bytes.bytes) (it : t) : t :=
  match it with
  | [] => []
  | (k, v) :: it' =>
      if Bytes.starts_with k prefix then (k, v) :: while_prefix prefix it' else []
  end.

End store.
Arguments t : clear implicits.
End Store.

(** ** Decimal request ids of the snapshot document *)

Module Dec.

(** [std::to_string] on a request id. *)
Definition to_string (z : Z) : string := NilZero.string_of_int (Z.to_int z).

(** [isspace] in the C locale. *)
Definition is_space (c : ascii) : bool :=
  let n := Z.of_N (N_of_ascii c) in (n =? 32) || ((9 <=? n) && (n <=? 13)).

(** The value of a decimal digit, [None] for any other character. *)
Definition digit_of (c : ascii) : option Z :=
  let n := Z.of_N (N_of_ascii c) in
  if (48 <=? n) && (n <=? 57) then Some (n - 48) else None.

Fixpoint skip_space (s : string) : string :=
  match s with
  | String c s' => if is_space c then skip_space s' else s
  | EmptyString => s
  end.

(** The longest prefix of decimal digits, read from the left onto [acc];
    [None] when there is no digit at all. *)
Fixpoint digits_value (s : string) (acc : Z) (seen : bool) : option Z :=
  match s with
  | String c s' =>
      match digit_of c with
      | Some d => digits_value s' (10 * acc + d) true
      | None => if seen then Some acc else None
      end
  | EmptyString => if seen then Some acc else None
  end.

(** [std::stoull(s)] in base 10, as [strtoull] reads it: leading white
    space is skipped, one sign is accepted, the digits up to the first
    other character are the value and the rest of the string is ignored; a
    minus sign negates the value modulo 2^64.  [None] stands for the
    exceptions: [invalid_argument] when no digit is found and
    [out_of_range] when the digits exceed [ULLONG_MAX]. *)
Definition stoull (s : string) : option Z :=
  let s1 := skip_space s in
  let '(negative, s2) :=
    match s1 with
    | String "-" s' => (true, s')
    | String "+" s' => (false, s')
    | _ => (false, s1)
    end in
  v ← digits_value s2 0 false;
  if 18446744073709551615 <? v then None
  else Some (if negative then Int.wrap64 (- v) else v).

(** The digits of a decimal numeral of the standard library, read the same
    way; [to_string] is stated with these numerals. *)
Fixpoint uint_value (d : Decimal.uint) (acc : Z) : Z :=
  match d with
  | Decimal.Nil => acc
  | Decimal.D0 l => uint_value l (10 * acc + 0)
  | Decimal.D1 l => uint_value l (10 * acc + 1)
  | Decimal.D2 l => uint_value l (10 * acc + 2)
  | Decimal.D3 l => uint_value l (10 * acc + 3)
  | Decimal.D4 l => uint_value l (10 * acc + 4)
  | Decimal.D5 l => uint_value l (10 * acc + 5)
  | Decimal.D6 l => uint_value l (10 * acc + 6)
  | Decimal.D7 l => uint_value l (10 * acc + 7)
  | Decimal.D8 l => uint_value l (10 * acc + 8)
  | Decimal.D9 l => uint_value l (10 * acc + 9)
  end.

End Dec.

(** ** The data model of the indexer *)

Module Indexer.
Import Int.

(** Route handlers are function pointers; [get_collection_name] compares
    them with [post_create_collection]. *)
Inductive handler_fn :=
  | post_create_collection
  | other_handler (id : nat).

#[global] Instance handler_fn_eq_dec : EqDecision handler_fn.
Proof. solve_decision. Defined.

Record route_path := { handler : handler_fn; async_res : bool }.

(** The fields of [http_req] the indexer reads or writes.  [proceed_req]
    stands for [_req != nullptr && _req->proceed_req]. *)
Record http_req := {
  start_ts : Z;
  route_hash : Z;
  params : gmap string string;
  body : string;
  last_chunk_aggregate : bool;
  log_index : Z;
  proceed_req : bool
}.

Record http_res := {
  status_code : Z;
  res_body : string;
  is_alive : bool
}.

(** The serialized form of a request, the value stored for each chunk. *)
Record req_json := {
  j_start_ts : Z;
  j_route_hash : Z;
  j_params : gmap string string;
  j_body : string;
  j_last_chunk_aggregate : bool;
  j_log_index : Z
}.

(** Modelled from the spec: [http_req::to_json] is not part of the
    sources; the spec describes the chunk value as the serialized request
    metadata with the body fragment. *)
Definition to_json (r : http_req) : req_json :=
  {| j_start_ts := start_ts r; j_route_hash := route_hash r;
     j_params := params r; j_body := body r;
     j_last_chunk_aggregate := last_chunk_aggregate r;
     j_log_index := log_index r |}.

(** Modelled from the spec: [http_req::load_from_json] is not part of the
    sources; the spec describes it as the load operation symmetric to the
    serialization, which appends the chunk's body fragment to the body the
    worker has set from [prev_req_body]. *)
Definition load_from_json (r : http_req) (j : req_json) : http_req :=
  {| start_ts := j_start_ts j; route_hash := j_route_hash j;
     params := params r ∪ j_params j;
     body := (body r ++ j_body j)%string;
     last_chunk_aggregate := j_last_chunk_aggregate j;
     log_index := j_log_index j;
     proceed_req := proceed_req r |}.

(** A default-constructed request, as [std::make_shared<http_req>()]. *)
Definition new_http_req : http_req :=
  {| start_ts := 0; route_hash := 0; params := ∅; body := EmptyString;
     last_chunk_aggregate := false; log_index := 0; proceed_req := false |}.

(** Modelled from the spec: [http_res::set_404] is not part of the
    sources; the spec calls its effect a 404-equivalent response. *)
Definition set_404 (r : http_res) : http_res :=
  {| status_code := 404; res_body := "Not Found";
     is_alive := is_alive r |}.

Definition set_body (r : http_req) (b : string) : http_req :=
  {| start_ts := start_ts r; route_hash := route_hash r; params := params r;
     body := b; last_chunk_aggregate := last_chunk_aggregate r;
     log_index := log_index r; proceed_req := proceed_req r |}.

Definition set_params (r : http_req) (p : gmap string string) : http_req :=
  {| start_ts := start_ts r; route_hash := route_hash r; params := p;
     body := body r; last_chunk_aggregate := last_chunk_aggregate r;
     log_index := log_index r; proceed_req := proceed_req r |}.

(** [req_res_t], with the constructor's argument order. *)
Record req_res_t := {
  prev_req_body : string;
  req : http_req;
  res : http_res;
  batch_begin_ts : Z;
  num_chunks : Z;
  next_chunk_index : Z;
  is_complete : bool
}.

(** Messages to the HTTP server; the handles they carry are recorded as
    the request id and the response at the time of sending. *)
Inductive message :=
  | REQUEST_PROCEED_MESSAGE (req_id : Z)
  | STREAM_RESPONSE_MESSAGE (req_id : Z) (rs : http_res).

(** What the indexer does to its collaborators, in program order. *)
Inductive event :=
  | EvLoad (chunk : req_json)
  | EvHandler (h : handler_fn) (rq : http_req)
  | EvSet404
  | EvSend (m : message)
  | EvSleep (ms : Z).

(** The state of a [BatchedIndexer]. *)
Record t := {
  req_res_map : gmap Z req_res_t;
  store : Store.t req_json;
  queues : list (list Z);
  num_threads : nat;
  queued_writes : Z;
  write_log_index : Z;
  events : list event
}.

(** The constructor: [num_threads] empty queues. *)
Definition init (n : nat) : t :=
  {| req_res_map := ∅; store := []; queues := replicate n [];
     num_threads := n; queued_writes := 0; write_log_index := 0;
     events := [] |}.

(** The collaborators and constants declared outside the sources. *)
Record Env := {
  RAFT_REQ_LOG_PREFIX : Bytes.bytes;
  GC_INTERVAL_SECONDS : Z;
  GC_PRUNE_MAX_SECONDS : Z;
  (** [HttpServer::get_route]; [None] when it returns [false]. *)
  get_route : Z -> option route_path;
  (** Calling a handler on a request and a response. *)
  run_handler : handler_fn -> http_req -> http_res -> http_req * http_res;
  (** [StringUtils::hash_wy]. *)
  hash_wy : string -> Z;
  (** The top-level string field [name] of a body that parses as a JSON
      object, as [get_collection_name] extracts it. *)
  json_name : string -> option string;
  (** The response [load_state] creates with [http_res(nullptr)]. *)
  restored_res : http_res
}.

(** How far a call got. *)
Inductive outcome (A : Type) :=
  | Done (a : A)
  | Undefined
  | Blocked (a : A).
Arguments Done {A} a.
Arguments Undefined {A}.
Arguments Blocked {A} a.

(** *** Field updates *)

Definition set_req_res_map (st : t) (m : gmap Z req_res_t) : t :=
  {| req_res_map := m; store := store st; queues := queues st;
     num_threads := num_threads st; queued_writes := queued_writes st;
     write_log_index := write_log_index st; events := events st |}.

Definition set_store (st : t) (s : Store.t req_json) : t :=
  {| req_res_map := req_res_map st; store := s; queues := queues st;
     num_threads := num_threads st; queued_writes := queued_writes st;
     write_log_index := write_log_index st; events := events st |}.

Definition set_queues (st : t) (qs : list (list Z)) : t :=
  {| req_res_map := req_res_map st; store := store st; queues := qs;
     num_threads := num_threads st; queued_writes := queued_writes st;
     write_log_index := write_log_index st; events := events st |}.

Definition set_queued_writes (st : t) (q : Z) : t :=
  {| req_res_map := req_res_map st; store := store st; queues := queues st;
     num_threads := num_threads st; queued_writes := q;
     write_log_index := write_log_index st; events := events st |}.

Definition add_events (st : t) (es : list event) : t :=
  {| req_res_map := req_res_map st; store := store st; queues := queues st;
     num_threads := num_threads st; queued_writes := queued_writes st;
     write_log_index := write_log_index st; events := events st ++ es |}.

Definition set_req (r : req_res_t) (rq : http_req) : req_res_t :=
  {| prev_req_body := prev_req_body r; req := rq; res := res r;
     batch_begin_ts := batch_begin_ts r; num_chunks := num_chunks r;
     next_chunk_index := next_chunk_index r; is_complete := is_complete r |}.

Definition set_num_chunks (r : req_res_t) (n : Z) : req_res_t :=
  {| prev_req_body := prev_req_body r; req := req r; res := res r;
     batch_begin_ts := batch_begin_ts r; num_chunks := n;
     next_chunk_index := next_chunk_index r; is_complete := is_complete r |}.

Definition set_is_complete (r : req_res_t) (b : bool) : req_res_t :=
  {| prev_req_body := prev_req_body r; req := req r; res := res r;
     batch_begin_ts := batch_begin_ts r; num_chunks := num_chunks r;
     next_chunk_index := next_chunk_index r; is_complete := b |}.

Section ops.
Variable env : Env.

(** *** Keys *)

Definition get_req_prefix_key (req_id : Z) : Bytes.bytes :=
  Keys.get_req_prefix_key (RAFT_REQ_LOG_PREFIX env) req_id.

Definition chunk_key (req_id seq : Z) : Bytes.bytes :=
  get_req_prefix_key req_id ++ Keys.serialize_uint32_t seq.

(** *** [get_collection_name]

    [coll_name] is a reference into [req->params]: [operator[]] creates
    the entry and the assignment of the JSON name writes it, so the
    request is returned with the name.  When the parameter is empty the
    result of [get_route] is ignored and [rpath] dereferenced: with no
    route the pointer is uninitialised, which is [None] here. *)
Definition get_collection_name (r : http_req) : option (string * http_req) :=
  let coll_name := default EmptyString (params r !! "collection"%string) in
  if decide (coll_name = EmptyString) then
    match get_route env (route_hash r) with
    | None => None
    | Some rpath =>
        let name :=
          if decide (handler rpath = post_create_collection) then
            default EmptyString (json_name env (body r))
          else EmptyString in
        Some (name, set_params r (<["collection"%string := name]> (params r)))
    end
  else Some (coll_name, r).

(** [hash_wy(coll_name) % num_threads]; no value when [num_threads] is 0. *)
Definition queue_of (st : t) (coll_name : string) : option nat :=
  if decide (num_threads st = 0%nat) then None
  else Some (Z.to_nat (wrap64 (hash_wy env coll_name) mod Z.of_nat (num_threads st))).

(** [queues[queue_id].emplace_back(id)]; no value outside the vector. *)
Definition push_queue (q : nat) (id : Z) (qs : list (list Z))
  : option (list (list Z)) :=
  match qs !! q with
  | Some l => Some (<[q := l ++ [id]]> qs)
  | None => None
  end.

(** *** [enqueue] *)

(** Lines 18-35: find or create the record and pick the chunk sequence. *)
Definition register_chunk (now : Z) (st : t) (rq : http_req) (rs : http_res)
  : t * Z :=
  match req_res_map st !! start_ts rq with
  | None =>
      (set_req_res_map st
         (<[start_ts rq :=
              {| prev_req_body := EmptyString; req := rq; res := rs;
                 batch_begin_ts := now; num_chunks := 1;
                 next_chunk_index := 0; is_complete := false |}]>
            (req_res_map st)), 0)
  | Some r =>
      (set_req_res_map st
         (<[start_ts rq := set_num_chunks r (wrap32 (num_chunks r + 1))]>
            (req_res_map st)), num_chunks r)
  end.

(** The record holds the request handle of the first chunk.  When the
    handle passed to this call is that same object ([aliased]), what
    [enqueue] writes to the request is seen through the record. *)
Definition sync_handle (aliased : bool) (st : t) (rq : http_req) : t :=
  if aliased then
    set_req_res_map st (alter (fun r => set_req r rq) (start_ts rq) (req_res_map st))
  else st.

Definition mark_complete (req_id : Z) (st : t) : t :=
  set_req_res_map st
    (alter (fun r => set_is_complete r true) req_id (req_res_map st)).

(** Lines 18-43: register the chunk, write it to the store and clear the
    body of the request. *)
Definition persist_chunk (now : Z) (aliased : bool) (st : t)
    (rq : http_req) (rs : http_res) : t * Z :=
  let first := bool_decide (req_res_map st !! start_ts rq = None) in
  let '(st1, chunk_sequence) := register_chunk now st rq rs in
  let request_chunk_key := chunk_key (start_ts rq) chunk_sequence in
  let st2 := set_store st1 (Store.insert request_chunk_key (to_json rq) (store st1)) in
  (sync_handle (aliased || first) st2 (set_body rq EmptyString), chunk_sequence).

(** Lines 50-59: count the writes, queue the request, mark it complete. *)
Definition complete_request (aliased : bool) (st : t) (rq : http_req)
    (chunk_sequence : Z) : option t :=
  let st1 :=
    set_queued_writes st
      (wrap_int64 (queued_writes st + wrap32 (chunk_sequence + 1))) in
  '(coll_name, rq') ← get_collection_name rq;
  let st2 := sync_handle aliased st1 rq' in
  queue_id ← queue_of st2 coll_name;
  qs ← push_queue queue_id (start_ts rq) (queues st2);
  Some (mark_complete (start_ts rq) (set_queues st2 qs)).

(** Lines 18-60: everything before the wait of old serialized requests. *)
Definition enqueue_chunk (now : Z) (aliased : bool) (st : t)
    (rq : http_req) (rs : http_res) : option t :=
  let first := bool_decide (req_res_map st !! start_ts rq = None) in
  let '(st1, chunk_sequence) := persist_chunk now aliased st rq rs in
  if last_chunk_aggregate rq then
    complete_request (aliased || first) st1 (set_body rq EmptyString)
      chunk_sequence
  else Some st1.

(** Lines 68-77: poll the registry every 10 ms.  [sched i] is what the
    other threads do to the indexer during the [i]-th sleep; [fuel]
    bounds the number of sleeps observed. *)
Fixpoint wait_registry_empty (sched : nat -> t -> t) (fuel i : nat) (st : t)
  : outcome t :=
  if decide (req_res_map st = ∅) then Done st
  else
    match fuel with
    | O => Blocked st
    | S fuel' =>
        wait_registry_empty sched fuel' (S i)
          (sched i (add_events st [EvSleep 10]))
    end.

Definition enqueue (now : Z) (aliased : bool) (sched : nat -> t -> t)
    (fuel : nat) (st : t) (rq : http_req) (rs : http_res) : outcome t :=
  let is_old_serialized_request := bool_decide (start_ts rq = 0) in
  let read_more_input := proceed_req rq in
  match enqueue_chunk now aliased st rq rs with
  | None => Undefined
  | Some st1 =>
      let waited :=
        if last_chunk_aggregate rq && is_old_serialized_request
        then wait_registry_empty sched fuel 0 st1
        else Done st1 in
      match waited with
      | Done st2 =>
          Done (if read_more_input
                then add_events st2 [EvSend (REQUEST_PROCEED_MESSAGE (start_ts rq))]
                else st2)
      | other => other
      end
  end.

(** *** The worker

    The locals of one pass through lines 128-186. *)
Record drain_state := {
  d_req : http_req;
  d_res : http_res;
  d_prev_body : string;
  d_next_chunk_index : Z;
  d_queued_writes : Z;
  d_async_res : bool;
  d_write_log_index : Z;
  d_events : list event
}.

(** One chunk: lines 153-173. *)
Definition apply_chunk (route : option route_path) (is_live_req : bool)
    (req_id : Z) (v : req_json) (d : drain_state) : drain_state :=
  let rq1 := load_from_json (set_body (d_req d) (d_prev_body d)) v in
  let d2 :=
    match route with
    | Some rpath =>
        let '(rq2, rs2) := run_handler env (handler rpath) rq1 (d_res d) in
        {| d_req := rq2; d_res := rs2; d_prev_body := body rq2;
           d_next_chunk_index := d_next_chunk_index d;
           d_queued_writes := d_queued_writes d;
           d_async_res := async_res rpath;
           d_write_log_index := log_index rq1;
           d_events := d_events d ++ [EvLoad v; EvHandler (handler rpath) rq1] |}
    | None =>
        {| d_req := rq1; d_res := set_404 (d_res d);
           d_prev_body := d_prev_body d;
           d_next_chunk_index := d_next_chunk_index d;
           d_queued_writes := d_queued_writes d;
           d_async_res := d_async_res d;
           d_write_log_index := log_index rq1;
           d_events := d_events d ++ [EvLoad v; EvSet404] |}
    end in
  if is_live_req && (negb (bool_decide (is_Some route)) || negb (d_async_res d2))
  then
    {| d_req := d_req d2; d_res := d_res d2; d_prev_body := d_prev_body d2;
       d_next_chunk_index := d_next_chunk_index d2;
       d_queued_writes := d_queued_writes d2;
       d_async_res := d_async_res d2;
       d_write_log_index := d_write_log_index d2;
       d_events :=
         d_events d2 ++ [EvSend (STREAM_RESPONSE_MESSAGE req_id (d_res d2))] |}
  else d2.

(** Lines 179-180. *)
Definition advance (d : drain_state) : drain_state :=
  {| d_req := d_req d; d_res := d_res d; d_prev_body := d_prev_body d;
     d_next_chunk_index := wrap32 (d_next_chunk_index d + 1);
     d_queued_writes := wrap_int64 (d_queued_writes d - 1);
     d_async_res := d_async_res d;
     d_write_log_index := d_write_log_index d;
     d_events := d_events d |}.

(** The loop of lines 151-186 over the entries [it] of the iterator.
    [quit i] is the value of the quit flag read after the [i]-th chunk
    (counted from 0) of this pass has been applied. *)
Fixpoint drain (prefix : Bytes.bytes) (route : option route_path)
    (is_live_req : bool) (quit : nat -> bool) (req_id : Z)
    (it : Store.t req_json) (i : nat) (d : drain_state) : drain_state :=
  match it with
  | [] => d
  | (k, v) :: it' =>
      if Bytes.starts_with k prefix then
        let d1 := apply_chunk route is_live_req req_id v d in
        match route with
        | None => d1
        | Some _ =>
            let d2 := advance d1 in
            if quit i then d2
            else drain prefix route is_live_req quit req_id it' (S i) d2
        end
      else d
  end.

Definition drain_init (st : t) (r : req_res_t) : drain_state :=
  {| d_req := req r; d_res := res r; d_prev_body := prev_req_body r;
     d_next_chunk_index := next_chunk_index r;
     d_queued_writes := queued_writes st; d_async_res := false;
     d_write_log_index := write_log_index st; d_events := [] |}.

(** The iterator of line 138. *)
Definition request_iterator (st : t) (req_id : Z) (r : req_res_t)
  : Store.t req_json :=
  Store.scan (chunk_key req_id (next_chunk_index r)) (store st).

(** The drain of one request: lines 128-186, before the clean-up. *)
Definition drain_request (quit : nat -> bool) (st : t) (req_id : Z)
    (r : req_res_t) : drain_state :=
  drain (get_req_prefix_key req_id) (get_route env (route_hash (req r)))
    (is_alive (res r)) quit req_id (request_iterator st req_id r) 0
    (drain_init st r).

(** Lines 128-196 for a request id taken from the queue.  A missing
    record is created by [operator[]] with null handles, which line 145
    dereferences: [None]. *)
Definition process_request (quit : nat -> bool) (st : t) (req_id : Z)
  : option t :=
  match req_res_map st !! req_id with
  | None => None
  | Some r =>
      let d := drain_request quit st req_id r in
      let req_key_prefix := get_req_prefix_key req_id in
      Some {| req_res_map := delete req_id (req_res_map st);
              store :=
                Store.delete_range req_key_prefix
                  (req_key_prefix ++ Keys.serialize_uint32_t UINT32_MAX)
                  (store st);
              queues := queues st;
              num_threads := num_threads st;
              queued_writes := d_queued_writes d;
              write_log_index := d_write_log_index d;
              events := events st ++ d_events d |}
  end.

(** One turn of the loop of worker [i] (lines 118-200), entered with the
    quit flag unset. *)
Definition worker_iteration (i : nat) (quit : nat -> bool) (st : t)
  : option t :=
  match queues st !! i with
  | None => None
  | Some [] => Some (add_events st [EvSleep 10])
  | Some (req_id :: rest) =>
      st' ← process_request quit (set_queues st (<[i := rest]> (queues st))) req_id;
      Some (add_events st' [EvSleep 10])
  end.

(** *** Garbage collection *)

(** [clock k] is the wall clock read when the record of [k] is visited. *)
Definition gc_expired (clock : Z -> Z) (k : Z) (r : req_res_t) : bool :=
  GC_PRUNE_MAX_SECONDS env <? wrap64 (clock k - batch_begin_ts r).

Definition gc_delete (st : Store.t req_json) (r : req_res_t) : Store.t req_json :=
  let req_key_prefix := get_req_prefix_key (start_ts (req r)) in
  Store.delete_range req_key_prefix
    (req_key_prefix ++ Keys.serialize_uint32_t UINT32_MAX) st.

(** Lines 219-233. *)
Definition gc_scan (clock : Z -> Z) (st : t) : t :=
  let expired :=
    List.filter (fun kr => gc_expired clock (fst kr) (snd kr))
      (map_to_list (req_res_map st)) in
  set_store
    (set_req_res_map st
       (filter (fun kr => gc_expired clock (fst kr) (snd kr) = false)
          (req_res_map st)))
    (fold_left (fun s kr => gc_delete s (snd kr)) expired (store st)).

(** One tick of the loop of lines 204-237: [seconds_elapsed] since the
    last run decides whether the scan is due. *)
Definition gc_tick (seconds_elapsed : Z) (clock : Z -> Z) (st : t) : t :=
  if GC_INTERVAL_SECONDS env <? seconds_elapsed then gc_scan clock st else st.

(** *** Snapshots *)

(** One entry of [state["req_res_map"]]. *)
Record entry_json := {
  e_batch_begin_ts : Z;
  e_num_chunks : Z;
  e_next_chunk_index : Z;
  e_is_complete : bool;
  e_req : req_json;
  e_prev_req_body : string
}.

(** The snapshot document; the JSON object is a map ordered by key. *)
Record state_json := {
  s_queued_writes : Z;
  s_req_res_map : gmap string entry_json
}.

Definition serialize_entry (r : req_res_t) : entry_json :=
  {| e_batch_begin_ts := batch_begin_ts r; e_num_chunks := num_chunks r;
     e_next_chunk_index := next_chunk_index r;
     e_is_complete := is_complete r; e_req := to_json (req r);
     e_prev_req_body := prev_req_body r |}.

Definition serialize_state (st : t) : state_json :=
  {| s_queued_writes := queued_writes st;
     s_req_res_map := kmap Dec.to_string (serialize_entry <$> req_res_map st) |}.

(** [items()] walks a JSON object in the order of its keys. *)
Definition items (m : gmap string entry_json) : list (string * entry_json) :=
  merge_sort (fun a b => String.le (fst a) (fst b)) (map_to_list m).

(** [req_res_map.emplace]: no effect on a key that is present. *)
Definition emplace (k : Z) (r : req_res_t) (m : gmap Z req_res_t)
  : gmap Z req_res_t :=
  match m !! k with
  | Some _ => m
  | None => <[k := r]> m
  end.

Definition restored_record (e : entry_json) (rq : http_req) : req_res_t :=
  {| prev_req_body := e_prev_req_body e; req := rq; res := restored_res env;
     batch_begin_ts := wrap64 (e_batch_begin_ts e);
     num_chunks := wrap32 (e_num_chunks e);
     next_chunk_index := wrap32 (e_next_chunk_index e);
     is_complete := e_is_complete e |}.

(** The body of the loop of lines 295-324.  The record shares the request
    handle, so it sees what [get_collection_name] writes to the request. *)
Definition restore_entry (acc : t * list nat) (kv : string * entry_json)
  : option (t * list nat) :=
  let '(st, queue_ids) := acc in
  let rq := load_from_json new_http_req (e_req (snd kv)) in
  id ← Dec.stoull (fst kv);
  if e_is_complete (snd kv) then
    '(coll_name, rq') ← get_collection_name rq;
    let st1 :=
      set_req_res_map st
        (emplace id (restored_record (snd kv) rq') (req_res_map st)) in
    queue_id ← queue_of st1 coll_name;
    qs ← push_queue queue_id (start_ts rq') (queues st1);
    Some (set_queues st1 qs, queue_ids ++ [queue_id])
  else
    Some (set_req_res_map st
            (emplace id (restored_record (snd kv) rq) (req_res_map st)),
          queue_ids).

Fixpoint restore_entries (acc : t * list nat) (l : list (string * entry_json))
  : option (t * list nat) :=
  match l with
  | [] => Some acc
  | kv :: l' => acc' ← restore_entry acc kv; restore_entries acc' l'
  end.

(** Lines 327-330: [std::sort] of every queue that received an id. *)
Definition sort_queues (qs : list (list Z)) (queue_ids : list nat)
  : list (list Z) :=
  fold_left (fun qs q => alter (merge_sort Z.le) q qs) queue_ids qs.

Definition load_state (st : t) (state : state_json) : option t :=
  let st0 := set_queued_writes st (wrap_int64 (s_queued_writes state)) in
  '(st1, queue_ids) ← restore_entries (st0, []) (items (s_req_res_map state));
  Some (set_queues st1 (sort_queues (queues st1) queue_ids)).

(** What [restore_entry] makes of one item of the document in an
    indexer with [n] queues: the request id, the record, and for a
    complete record the queue and the id appended to it. *)
Definition entry_restored (n : nat) (kv : string * entry_json)
  : option (Z * req_res_t * option (nat * Z)) :=
  let rq := load_from_json new_http_req (e_req (snd kv)) in
  id ← Dec.stoull (fst kv);
  if e_is_complete (snd kv) then
    '(coll_name, rq') ← get_collection_name rq;
    if decide (n = 0%nat) then None
    else
      Some (id, restored_record (snd kv) rq',
            Some (Z.to_nat (wrap64 (hash_wy env coll_name) mod Z.of_nat n),
                  start_ts rq'))
  else Some (id, restored_record (snd kv) rq, None).

(** The record [emplace] keeps for [k]: that of the first item with id [k]. *)
Fixpoint first_entry (n : nat) (k : Z) (l : list (string * entry_json))
  : option req_res_t :=
  match l with
  | [] => None
  | kv :: l' =>
      match entry_restored n kv with
      | Some (id, r, _) => if decide (id = k) then Some r else first_entry n k l'
      | None => first_entry n k l'
      end
  end.

(** The ids appended to queue [q], and the queues that received an id. *)
Definition queued_ids (n q : nat) (l : list (string * entry_json)) : list Z :=
  omap (fun kv =>
          match entry_restored n kv with
          | Some (_, _, Some (q', id)) => if decide (q' = q) then Some id else None
          | _ => None
          end) l.

Definition entry_queues (n : nat) (l : list (string * entry_json)) : list nat :=
  omap (fun kv =>
          match entry_restored n kv with
          | Some (_, _, Some (q', _)) => Some q'
          | _ => None
          end) l.

(** *** Sequences of calls and what a trace shows *)

(** The chunks of request [req_id] that a worker scanning from chunk
    [seq] visits before the loop condition fails. *)
Definition req_chunks (st : t) (req_id seq : Z) : Store.t req_json :=
  Store.while_prefix (get_req_prefix_key req_id)
    (Store.scan (chunk_key req_id seq) (store st)).

(** One call of [enqueue] by the write thread. *)
Record call := {
  c_now : Z;
  c_aliased : bool;
  c_req : http_req;
  c_res : http_res
}.

Fixpoint enqueue_chunks (st : t) (calls : list call) : option t :=
  match calls with
  | [] => Some st
  | c :: calls' =>
      st' ← enqueue_chunk (c_now c) (c_aliased c) st (c_req c) (c_res c);
      enqueue_chunks st' calls'
  end.

(** Request [id] for route hash [h] has [i] chunks registered and
    persisted, none of them applied. *)
Definition pending (id h i : Z) (st : t) : Prop :=
  Store.wf (store st) /\
  fst <$> req_chunks st id 0 = chunk_key id <$> seqZ 0 i /\
  match req_res_map st !! id with
  | None => i = 0
  | Some r =>
      0 < i /\ num_chunks r = i /\ next_chunk_index r = 0 /\
      route_hash (req r) = h
  end.

(** The invariant of the indexer's data: the store is ordered, there is
    one queue for each worker, and every record is registered under the
    id of its request. *)
Definition consistent (st : t) : Prop :=
  Store.wf (store st) /\
  length (queues st) = num_threads st /\
  forall k r, req_res_map st !! k = Some r -> start_ts (req r) = k.

(** One action of one thread: the write thread enqueues a chunk, a worker
    goes once through its loop, the main thread goes through a GC tick. *)
Inductive step : t -> t -> Prop :=
  | step_enqueue now aliased st rq rs st' :
      enqueue_chunk now aliased st rq rs = Some st' -> step st st'
  | step_worker i quit st st' :
      worker_iteration i quit st = Some st' -> step st st'
  | step_gc seconds_elapsed clock st :
      step st (gc_tick seconds_elapsed clock st).

End ops.

(** The indexer as the [n]-th poll of the wait of lines 68-77 sees it,
    [i] sleeps having gone before: every earlier poll is followed by a
    sleep of 10 ms during which the other threads run. *)
Fixpoint polled (sched : nat -> t -> t) (i n : nat) (st : t) : t :=
  match n with
  | O => st
  | S n' => polled sched (S i) n' (sched i (add_events st [EvSleep 10]))
  end.

(** The chunks loaded, the handler calls, the 404 responses and the
    messages sent in a trace. *)
Definition loads (es : list event) : list req_json :=
  omap (fun e => match e with EvLoad v => Some v | _ => None end) es.

Definition handled (es : list event) : list (handler_fn * http_req) :=
  omap (fun e => match e with EvHandler h rq => Some (h, rq) | _ => None end) es.

Definition sent (es : list event) : list message :=
  omap (fun e => match e with EvSend m => Some m | _ => None end) es.

Definition set_404_count (es : list event) : nat :=
  length (List.filter (fun e => match e with EvSet404 => true | _ => false end) es).

Definition sleeps (es : list event) : list Z :=
  omap (fun e => match e with EvSleep ms => Some ms | _ => None end) es.

(** How many chunks of an iterator with [n] entries a worker applies
    when it reads the quit flag [quit i] after chunk [i]. *)
Fixpoint applied_count (quit : nat -> bool) (i n : nat) : nat :=
  match n with
  | O => O
  | S n' => if quit i then 1%nat else S (applied_count quit (S i) n')
  end.

End Indexer.

(** ** A small instance

    A route table with one ordinary route (hash 1) and the
    create-collection route (hash 2), and a few requests and states on
    which the operations can be run. *)

Module Demo.
Import Indexer.

Definition env : Env :=
  {| RAFT_REQ_LOG_PREFIX := [36; 82; 76; 95];
     GC_INTERVAL_SECONDS := 60;
     GC_PRUNE_MAX_SECONDS := 3600;
     get_route := fun h =>
       if h =? 1 then Some {| handler := other_handler 0; async_res := false |}
       else if h =? 2 then Some {| handler := post_create_collection; async_res := false |}
       else None;
     run_handler := fun _ rq rs =>
       (set_body rq EmptyString,
        {| status_code := 200; res_body := "ok"; is_alive := is_alive rs |});
     hash_wy := fun s => Z.of_nat (String.length s);
     json_name := fun _ => None;
     restored_res :=
       {| status_code := 0; res_body := EmptyString; is_alive := false |} |}.

(** A chunk of request [id] for route [hash] with collection [books]. *)
Definition request (id hash : Z) (last : bool) (b : string) : http_req :=
  {| start_ts := id; route_hash := hash;
     params := {[ "collection"%string := "books"%string ]};
     body := b; last_chunk_aggregate := last; log_index := 1;
     proceed_req := true |}.

Definition response (live : bool) : http_res :=
  {| status_code := 0; res_body := EmptyString; is_alive := live |}.

Definition record (id hash : Z) (chunks next : Z) (complete live : bool)
  : req_res_t :=
  {| prev_req_body := EmptyString;
     req := request id hash complete EmptyString;
     res := response live; batch_begin_ts := 1000; num_chunks := chunks;
     next_chunk_index := next; is_complete := complete |}.

(** Request 5 with two persisted chunks, complete, waiting in queue 1 of
    two; its route hash is [hash]. *)
Definition two_chunks (hash : Z) (live : bool) : t :=
  {| req_res_map := {[ 5 := record 5 hash 2 0 true live ]};
     store :=
       [ (chunk_key env 5 0, to_json (request 5 hash false "a"));
         (chunk_key env 5 1, to_json (request 5 hash true "b")) ];
     queues := [ []; [5] ];
     num_threads := 2; queued_writes := 2; write_log_index := 0;
     events := [] |}.

Definition young_record : req_res_t :=
  {| prev_req_body := EmptyString; req := request 6 1 false EmptyString;
     res := response false; batch_begin_ts := 5000; num_chunks := 1;
     next_chunk_index := 0; is_complete := false |}.

(** Two requests with one chunk each: request 5 began at second 1000,
    request 6 at second 5000; request 5 is complete and queued. *)
Definition two_requests : t :=
  {| req_res_map := {[ 5 := record 5 1 1 0 true false; 6 := young_record ]};
     store :=
       [ (chunk_key env 5 0, to_json (request 5 1 true "a"));
         (chunk_key env 6 0, to_json (request 6 1 false "b")) ];
     queues := [ []; [5] ];
     num_threads := 2; queued_writes := 1; write_log_index := 0;
     events := [] |}.



(** A call of [enqueue] with a chunk of request [id] at second 1000. *)
Definition chunk_call (id hash : Z) (last : bool) (b : string) : call :=
  {| c_now := 1000; c_aliased := false; c_req := request id hash last b;
     c_res := response true |}.

(** The indexer after the only chunk of request 5 has been enqueued. *)
Definition one_enqueued : t :=
  default (init 2)
    (enqueue_chunk env 1000 false (init 2) (request 5 1 true "a") (response true)).


(** A last chunk from a producer without batching: request id 0. *)
Definition old_serialized_enqueued : t :=
  default (init 2)
    (enqueue_chunk env 1000 false (init 2) (request 0 1 true "a") (response true)).

(** The other threads finish every request during a sleep. *)
Definition others_finish (i : nat) (st : t) : t := set_req_res_map st ∅.

(** A request without a [collection] parameter. *)
Definition anonymous_request (id hash : Z) : http_req :=
  {| start_ts := id; route_hash := hash; params := ∅; body := "{}";
     last_chunk_aggregate := true; log_index := 1; proceed_req := false |}.

Definition anonymous_record (id hash : Z) : req_res_t :=
  {| prev_req_body := EmptyString; req := anonymous_request id hash;
     res := response false; batch_begin_ts := 1000; num_chunks := 1;
     next_chunk_index := 0; is_complete := true |}.

(** A fresh indexer with two queues that holds just one record. *)
Definition holding (id : Z) (r : req_res_t) : t :=
  set_req_res_map (init 2) {[ id := r ]}.

(** The same collaborators with a JSON reader that finds the name
    [books] in every body that is not empty. *)
Definition env_named : Env :=
  {| RAFT_REQ_LOG_PREFIX := RAFT_REQ_LOG_PREFIX env;
     GC_INTERVAL_SECONDS := GC_INTERVAL_SECONDS env;
     GC_PRUNE_MAX_SECONDS := GC_PRUNE_MAX_SECONDS env;
     get_route := get_route env;
     run_handler := run_handler env;
     hash_wy := hash_wy env;
     json_name := fun b =>
       if decide (b = EmptyString) then None else Some "books"%string;
     restored_res := restored_res env |}.

(** The indexer after a create-collection request without [collection]
    parameter has been enqueued. *)
Definition create_enqueued : t :=
  default (init 2)
    (enqueue_chunk env_named 1000 false (init 2) (anonymous_request 5 2)
       (response true)).

(** No other thread does anything. *)
Definition others_idle (i : nat) (st : t) : t := st.

(** An indexer that holds a record of request 6, after the snapshot of
    [two_requests] has been loaded into it. *)
Definition reloaded : t :=
  default (init 2)
    (load_state env (holding 6 (anonymous_record 6 1))
       (serialize_state two_requests)).

End Demo.

(** * Properties *)

Module IntFacts.
Import Int.

Lemma wrap32_small z : is_uint32 z -> wrap32 z = z.
Proof. unfold is_uint32, wrap32. intros H. apply Z.mod_small. lia. Qed.

Lemma wrap_int64_small z : is_int64 z -> wrap_int64 z = z.
Proof.
  unfold is_int64, wrap_int64. intros H.
  rewrite Z.mod_small by lia. lia.
Qed.

Lemma wrap_int64_range z : is_int64 (wrap_int64 z).
Proof.
  unfold is_int64, wrap_int64.
  pose proof (Z.mod_pos_bound (z + 9223372036854775808) 18446744073709551616).
  lia.
Qed.

Lemma wrap_int64_add_l a b : wrap_int64 (wrap_int64 a + b) = wrap_int64 (a + b).
Proof.
  unfold wrap_int64.
  replace ((a + 9223372036854775808) mod 18446744073709551616
           - 9223372036854775808 + b + 9223372036854775808)
    with ((a + 9223372036854775808) mod 18446744073709551616 + b) by lia.
  rewrite Zplus_mod_idemp_l. f_equal. f_equal. lia.
Qed.

End IntFacts.

Module BytesFacts.

Lemma compare_refl a : Bytes.compare a a = Eq.
Proof. induction a as [|x a IH]; simpl; [done|]. by rewrite Z.compare_refl. Qed.

Lemma compare_eq a b : Bytes.compare a b = Eq -> a = b.
Proof.
  revert b. induction a as [|x a IH]; intros [|y b]; simpl; try done.
  destruct (Z.compare_spec x y); try done. intros Hc. subst. f_equal. auto.
Qed.

Lemma compare_antisym a b : Bytes.compare b a = CompOpp (Bytes.compare a b).
Proof.
  revert b. induction a as [|x a IH]; intros [|y b]; simpl; try done.
  rewrite (Z.compare_antisym x y).
  destruct (x ?= y); simpl; auto.
Qed.

Lemma compare_lt_trans a b c :
  Bytes.compare a b = Lt -> Bytes.compare b c = Lt -> Bytes.compare a c = Lt.
Proof.
  revert b c. induction a as [|x a IH]; intros [|y b] [|z c]; simpl; try done.
  destruct (Z.compare_spec x y) as [Hxy|Hxy|Hxy]; try done;
    destruct (Z.compare_spec y z) as [Hyz|Hyz|Hyz]; try done;
    destruct (Z.compare_spec x z) as [Hxz|Hxz|Hxz]; try done; try lia.
  apply IH.
Qed.

Lemma compare_app p a b : Bytes.compare (p ++ a) (p ++ b) = Bytes.compare a b.
Proof. induction p as [|x p IH]; simpl; [done|]. by rewrite Z.compare_refl. Qed.

Lemma starts_with_app p s : Bytes.starts_with (p ++ s) p = true.
Proof. induction p as [|x p IH]; simpl; [done|]. by rewrite Z.eqb_refl. Qed.

Lemma starts_with_inv k p : Bytes.starts_with k p = true -> exists s, k = p ++ s.
Proof.
  revert k. induction p as [|y p IH]; intros k H; simpl in *.
  - by exists k.
  - destruct k as [|x k]; [done|].
    apply andb_true_iff in H as [Hx Hk]. apply Z.eqb_eq in Hx. subst.
    destruct (IH _ Hk) as [s ->]. by exists s.
Qed.

Lemma leb_refl a : Bytes.leb a a = true.
Proof. unfold Bytes.leb. by rewrite compare_refl. Qed.

Lemma ltb_leb a b : Bytes.ltb a b = negb (Bytes.leb b a).
Proof.
  unfold Bytes.ltb, Bytes.leb. rewrite (compare_antisym a b). by destruct (Bytes.compare a b).
Qed.

Lemma ltb_trans a b c : Bytes.ltb a b = true -> Bytes.ltb b c = true -> Bytes.ltb a c = true.
Proof.
  unfold Bytes.ltb. destruct (Bytes.compare a b) eqn:E1; try done.
  destruct (Bytes.compare b c) eqn:E2; try done.
  by rewrite (compare_lt_trans a b c).
Qed.

Lemma leb_ltb_trans a b c : Bytes.leb a b = true -> Bytes.ltb b c = true -> Bytes.ltb a c = true.
Proof.
  unfold Bytes.leb. destruct (Bytes.compare a b) eqn:E1; try done.
  - apply compare_eq in E1. by subst.
  - intros _. apply ltb_trans. unfold Bytes.ltb. by rewrite E1.
Qed.

Lemma ltb_leb_trans a b c : Bytes.ltb a b = true -> Bytes.leb b c = true -> Bytes.ltb a c = true.
Proof.
  unfold Bytes.leb. destruct (Bytes.compare b c) eqn:E1; try done.
  - apply compare_eq in E1. by subst.
  - intros H _. eapply ltb_trans; [done|]. unfold Bytes.ltb. by rewrite E1.
Qed.

Lemma ltb_irrefl a : Bytes.ltb a a = false.
Proof. unfold Bytes.ltb. by rewrite compare_refl. Qed.

(** A key that lies between two keys sharing a prefix shares it too. *)
Lemma starts_with_between p s1 s2 k :
  Bytes.leb (p ++ s1) k = true -> Bytes.leb k (p ++ s2) = true -> Bytes.starts_with k p = true.
Proof.
  revert k. induction p as [|y p IH]; intros k H1 H2; simpl in *; [done|].
  destruct k as [|x k]; [done|].
  unfold Bytes.leb in *. simpl in *.
  rewrite (Z.compare_antisym x y) in H1.
  destruct (Z.compare_spec x y); simpl in *; try done.
  subst. rewrite Z.eqb_refl. simpl. by apply IH.
Qed.

End BytesFacts.

Module KeysFacts.
Import Int Keys.

Lemma land_255 x : Z.land x 255 = x mod 256.
Proof. change 255 with (Z.ones 8). by rewrite Z.land_ones. Qed.

Lemma serialize_uint32_t_spec n :
  serialize_uint32_t n =
    [ (n / 16777216) mod 256; (n / 65536) mod 256; (n / 256) mod 256; n mod 256 ].
Proof.
  unfold serialize_uint32_t.
  rewrite !land_255, !Z.shiftr_div_pow2 by lia. reflexivity.
Qed.

Lemma serialize_uint64_t_spec n :
  serialize_uint64_t n =
    [ (n / 72057594037927936) mod 256; (n / 281474976710656) mod 256;
      (n / 1099511627776) mod 256; (n / 4294967296) mod 256;
      (n / 16777216) mod 256; (n / 65536) mod 256; (n / 256) mod 256;
      n mod 256 ].
Proof.
  unfold serialize_uint64_t.
  rewrite !land_255, !Z.shiftr_div_pow2 by lia. reflexivity.
Qed.

Lemma compare_cons_lt x y a b : x < y -> Bytes.compare (x :: a) (y :: b) = Lt.
Proof. intros H. simpl. by apply Z.compare_lt_iff in H as ->. Qed.

Lemma compare_cons_gt x y a b : y < x -> Bytes.compare (x :: a) (y :: b) = Gt.
Proof. intros H. simpl. by apply Z.compare_gt_iff in H as ->. Qed.

Lemma compare_cons_eq x a b : Bytes.compare (x :: a) (x :: b) = Bytes.compare a b.
Proof. simpl. by rewrite Z.compare_refl. Qed.

(** Big-endian encoding is an order isomorphism on 32-bit numbers. *)
Ltac zdm := Z.div_mod_to_equations; lia.

Lemma serialize_uint32_t_compare i j :
  is_uint32 i -> is_uint32 j ->
  Bytes.compare (serialize_uint32_t i) (serialize_uint32_t j) = (i ?= j).
Proof.
  unfold is_uint32. intros Hi Hj. rewrite !serialize_uint32_t_spec.
  destruct (Z.lt_trichotomy ((i / 16777216) mod 256) ((j / 16777216) mod 256))
    as [H|[H|H]].
  { rewrite compare_cons_lt by done. symmetry. apply Z.compare_lt_iff. zdm. }
  2:{ rewrite compare_cons_gt by done. symmetry. apply Z.compare_gt_iff. zdm. }
  rewrite H, compare_cons_eq.
  destruct (Z.lt_trichotomy ((i / 65536) mod 256) ((j / 65536) mod 256))
    as [H1|[H1|H1]].
  { rewrite compare_cons_lt by done. symmetry. apply Z.compare_lt_iff. zdm. }
  2:{ rewrite compare_cons_gt by done. symmetry. apply Z.compare_gt_iff. zdm. }
  rewrite H1, compare_cons_eq.
  destruct (Z.lt_trichotomy ((i / 256) mod 256) ((j / 256) mod 256))
    as [H2|[H2|H2]].
  { rewrite compare_cons_lt by done. symmetry. apply Z.compare_lt_iff. zdm. }
  2:{ rewrite compare_cons_gt by done. symmetry. apply Z.compare_gt_iff. zdm. }
  rewrite H2, compare_cons_eq.
  destruct (Z.lt_trichotomy (i mod 256) (j mod 256)) as [H3|[H3|H3]].
  { rewrite compare_cons_lt by done. symmetry. apply Z.compare_lt_iff. zdm. }
  2:{ rewrite compare_cons_gt by done. symmetry. apply Z.compare_gt_iff. zdm. }
  rewrite H3, compare_cons_eq. simpl. symmetry. apply Z.compare_eq_iff. zdm.
Qed.

Lemma serialize_uint32_t_inj i j :
  is_uint32 i -> is_uint32 j -> serialize_uint32_t i = serialize_uint32_t j -> i = j.
Proof.
  intros Hi Hj E. apply Z.compare_eq.
  rewrite <- serialize_uint32_t_compare by done. rewrite E.
  apply BytesFacts.compare_refl.
Qed.

Lemma serialize_uint64_t_inj a b :
  is_uint64 a -> is_uint64 b -> serialize_uint64_t a = serialize_uint64_t b -> a = b.
Proof.
  unfold is_uint64. intros Ha Hb. rewrite !serialize_uint64_t_spec.
  intros E. injection E as E7 E6 E5 E4 E3 E2 E1 E0. zdm.
Qed.

Lemma serialize_uint64_t_length n : length (serialize_uint64_t n) = 8%nat.
Proof. reflexivity. Qed.

End KeysFacts.

Module StoreFacts.

Section store.
Context {V : Type}.
Implicit Types st : Store.t V.

Lemma wf_tail e st : Store.wf (e :: st) -> Store.wf st.
Proof.
  unfold Store.wf. destruct e as [k v]. simpl. destruct st as [|[k' v'] st']; [done|].
  intros H. by apply andb_true_iff in H as [_ H].
Qed.

Lemma wf_head_lt k v st e :
  Store.wf ((k, v) :: st) -> In e st -> Bytes.ltb k (fst e) = true.
Proof.
  revert k v. induction st as [|[k' v'] st IH]; intros k v Hwf Hin; [done|].
  unfold Store.wf in Hwf. simpl in Hwf. apply andb_true_iff in Hwf as [Hlt Hs].
  destruct Hin as [<-|Hin]; [done|].
  eapply BytesFacts.ltb_trans; [exact Hlt|]. exact (IH k' v' Hs Hin).
Qed.

Lemma wf_cons k v st :
  Store.wf st -> (forall e, In e st -> Bytes.ltb k (fst e) = true) -> Store.wf ((k, v) :: st).
Proof.
  unfold Store.wf. intros Hs Hlt. simpl. destruct st as [|[k' v'] st']; [done|].
  rewrite Hs. pose proof (Hlt (k', v') (or_introl eq_refl)) as H. simpl in H.
  by rewrite H.
Qed.

Lemma in_insert k v st e :
  In e (Store.insert k v st) -> e = (k, v) \/ In e st.
Proof.
  induction st as [|[k' v'] st IH]; simpl.
  - intros [<-|[]]. by left.
  - destruct (Bytes.compare k k'); simpl; intros [<-|H]; auto.
    destruct (IH H); auto.
Qed.

Lemma insert_wf k v st : Store.wf st -> Store.wf (Store.insert k v st).
Proof.
  induction st as [|[k' v'] st IH]; intros Hwf; [done|].
  simpl. destruct (Bytes.compare k k') eqn:E.
  - apply BytesFacts.compare_eq in E. subst k'.
    apply wf_cons; [by eapply wf_tail|]. intros e He. by eapply wf_head_lt.
  - apply wf_cons; [done|]. intros e [<-|He].
    + unfold Bytes.ltb. simpl. by rewrite E.
    + eapply BytesFacts.ltb_trans; [|by eapply wf_head_lt].
      unfold Bytes.ltb. by rewrite E.
  - apply wf_cons; [apply IH; by eapply wf_tail|].
    intros e He. apply in_insert in He as [->|He].
    + simpl. unfold Bytes.ltb. rewrite BytesFacts.compare_antisym, E. done.
    + by eapply wf_head_lt.
Qed.

Lemma delete_range_wf lo hi st : Store.wf st -> Store.wf (Store.delete_range lo hi st).
Proof.
  unfold Store.delete_range. induction st as [|[k v] st IH]; intros Hwf; [done|].
  simpl. destruct (negb _).
  - apply wf_cons; [apply IH; by eapply wf_tail|].
    intros e He. apply filter_In in He as [He _]. by eapply wf_head_lt.
  - apply IH. by eapply wf_tail.
Qed.

Lemma in_delete_range lo hi st e :
  In e (Store.delete_range lo hi st) <-> In e st /\ Store.in_range lo hi (fst e) = false.
Proof.
  unfold Store.delete_range. rewrite filter_In. by rewrite negb_true_iff.
Qed.

Lemma ltb_implies_leb a b : Bytes.ltb a b = true -> Bytes.leb a b = true.
Proof. unfold Bytes.ltb, Bytes.leb. by destruct (Bytes.compare a b). Qed.

Lemma filter_all_true {A} (f : A -> bool) (l : list A) :
  (forall x, In x l -> f x = true) -> List.filter f l = l.
Proof.
  induction l as [|x l IH]; intros H; [done|]. simpl.
  rewrite (H x) by (by left). f_equal. apply IH. intros y Hy. apply H. by right.
Qed.

Lemma filter_all_false {A} (f : A -> bool) (l : list A) :
  (forall x, In x l -> f x = false) -> List.filter f l = [].
Proof.
  induction l as [|x l IH]; intros H; [done|]. simpl.
  rewrite (H x) by (by left). apply IH. intros y Hy. apply H. by right.
Qed.

(** On a sorted store the iterator opened at [lo] walks exactly over the
    entries whose key is not below [lo]. *)
Lemma scan_filter lo st :
  Store.wf st -> Store.scan lo st = List.filter (fun e => Bytes.leb lo (fst e)) st.
Proof.
  induction st as [|[k v] st IH]; intros Hwf; [done|]. simpl.
  rewrite BytesFacts.ltb_leb. destruct (Bytes.leb lo k) eqn:E; simpl.
  - f_equal. symmetry. apply filter_all_true. intros e He.
    apply ltb_implies_leb. eapply BytesFacts.leb_ltb_trans; [exact E|].
    by eapply wf_head_lt.
  - apply IH. by eapply wf_tail.
Qed.

Lemma filter_wf (f : Bytes.bytes * V -> bool) st :
  Store.wf st -> Store.wf (List.filter f st).
Proof.
  induction st as [|[k v] st IH]; intros Hwf; [done|]. simpl.
  destruct (f (k, v)).
  - apply wf_cons; [apply IH; by eapply wf_tail|].
    intros e He. apply filter_In in He as [He _]. by eapply wf_head_lt.
  - apply IH. by eapply wf_tail.
Qed.

(** In a sorted run of keys that are not below [p ++ s], the keys with
    prefix [p] come first. *)
Lemma while_prefix_filter p s st :
  Store.wf st ->
  (forall e, In e st -> Bytes.leb (p ++ s) (fst e) = true) ->
  Store.while_prefix p st = List.filter (fun e => Bytes.starts_with (fst e) p) st.
Proof.
  induction st as [|[k v] st IH]; intros Hwf Hlo; [done|]. simpl.
  destruct (Bytes.starts_with k p) eqn:E.
  - f_equal. apply IH; [by eapply wf_tail|]. intros e He. apply Hlo. by right.
  - symmetry. apply filter_all_false. intros e He.
    destruct (Bytes.starts_with (fst e) p) eqn:E'; [|done].
    apply BytesFacts.starts_with_inv in E' as [s' Hs'].
    assert (Bytes.starts_with k p = true) as Hk; [|congruence].
    apply (BytesFacts.starts_with_between p s s').
    + apply (Hlo (k, v)). by left.
    + rewrite <- Hs'. apply ltb_implies_leb. by eapply wf_head_lt.
Qed.

(** The chunks a worker visits when it scans from [p ++ s] while the key
    carries the prefix [p]. *)
Lemma while_prefix_scan p s st :
  Store.wf st ->
  Store.while_prefix p (Store.scan (p ++ s) st) =
    List.filter
      (fun e => Bytes.leb (p ++ s) (fst e) && Bytes.starts_with (fst e) p) st.
Proof.
  intros Hwf. rewrite scan_filter by done.
  rewrite (while_prefix_filter p s).
  - induction st as [|e st IH]; [done|]. simpl.
    destruct (Bytes.leb (p ++ s) (fst e)); simpl.
    + destruct (Bytes.starts_with (fst e) p); [f_equal|]; apply IH;
        by eapply wf_tail.
    + apply IH. by eapply wf_tail.
  - by apply filter_wf.
  - intros e He. by apply filter_In in He as [_ He].
Qed.

Lemma in_insert_iff k v st e :
  Store.wf st ->
  In e (Store.insert k v st) <-> e = (k, v) \/ (In e st /\ fst e <> k).
Proof.
  induction st as [|[k' v'] st IH]; intros Hwf; simpl.
  - split; [intros [<-|[]]; by left|intros [->|[[] _]]; by left].
  - assert (forall e', In e' st -> fst e' <> k') as Hne.
    { intros e' He' Heq. pose proof (wf_head_lt _ _ _ _ Hwf He') as Hlt.
      rewrite Heq in Hlt. by rewrite BytesFacts.ltb_irrefl in Hlt. }
    destruct (Bytes.compare k k') eqn:E; simpl.
    + apply BytesFacts.compare_eq in E. subst k'. split.
      * intros [<-|He]; [by left|]. right. split; [by right|]. by apply Hne.
      * intros [->|[[<-|He] Hk]]; [by left|done|by right].
    + assert (forall e', In e' ((k', v') :: st) -> fst e' <> k) as Hne'.
      { intros e' He' Heq. assert (Bytes.ltb k (fst e') = true) as Hlt.
        { destruct He' as [<-|He']; simpl.
          - unfold Bytes.ltb. by rewrite E.
          - eapply BytesFacts.ltb_trans; [|by eapply wf_head_lt].
            unfold Bytes.ltb. by rewrite E. }
        rewrite Heq in Hlt. by rewrite BytesFacts.ltb_irrefl in Hlt. }
      split.
      * intros [<-|He]; [by left|]. right. split; [done|]. by apply Hne'.
      * intros [->|[He _]]; [by left|by right].
    + rewrite IH by (by eapply wf_tail). split.
      * intros [<-|[->|[He Hk]]].
        -- right. split; [by left|]. simpl. intros ->.
           by rewrite BytesFacts.compare_refl in E.
        -- by left.
        -- right. split; [by right|done].
      * intros [->|[[<-|He] Hk]]; [right; by left|by left|].
        right. right. done.
Qed.

(** Writing a key above every selected entry appends it to the selection. *)
Lemma filter_insert_last (f : Bytes.bytes -> bool) k v st :
  Store.wf st -> f k = true ->
  (forall e, In e st -> f (fst e) = true -> Bytes.ltb (fst e) k = true) ->
  List.filter (fun e => f (fst e)) (Store.insert k v st) =
    List.filter (fun e => f (fst e)) st ++ [(k, v)].
Proof.
  induction st as [|[k' v'] st IH]; intros Hwf Hk Hlt; simpl.
  - by rewrite Hk.
  - assert (forall e, In e st -> Bytes.ltb k (fst e) = true -> f (fst e) = false)
      as Habove.
    { intros e He Hke. destruct (f (fst e)) eqn:Ef; [|done].
      pose proof (Hlt e (or_intror He) Ef) as H1.
      pose proof (BytesFacts.ltb_trans _ _ _ Hke H1) as H2.
      by rewrite BytesFacts.ltb_irrefl in H2. }
    destruct (Bytes.compare k k') eqn:E; simpl.
    + apply BytesFacts.compare_eq in E. subst k'. rewrite Hk.
      pose proof (Hlt (k, v') (or_introl eq_refl) Hk) as H1. simpl in H1.
      by rewrite BytesFacts.ltb_irrefl in H1.
    + rewrite Hk. destruct (f k') eqn:Ek'.
      * pose proof (Hlt (k', v') (or_introl eq_refl) Ek') as H1. simpl in H1.
        assert (Bytes.ltb k k' = true) as H2 by (unfold Bytes.ltb; by rewrite E).
        pose proof (BytesFacts.ltb_trans _ _ _ H2 H1) as H3.
        by rewrite BytesFacts.ltb_irrefl in H3.
      * rewrite filter_all_false; [done|].
        intros e He. apply Habove; [done|].
        eapply BytesFacts.ltb_trans; [|by eapply wf_head_lt].
        unfold Bytes.ltb. by rewrite E.
    + rewrite IH; [by destruct (f k')|by eapply wf_tail|done|].
      intros e He. apply Hlt. by right.
Qed.


End store.
End StoreFacts.

Module DecFacts.
Import Dec.

Lemma digits_value_uint d acc seen :
  d <> Decimal.Nil \/ seen = true ->
  digits_value (NilEmpty.string_of_uint d) acc seen = Some (uint_value d acc).
Proof.
  revert acc seen. induction d; intros acc seen H;
    try (cbn [NilEmpty.string_of_uint digits_value uint_value];
         change (digit_of _) with (Some 0) || change (digit_of _) with (Some 1)
         || change (digit_of _) with (Some 2) || change (digit_of _) with (Some 3)
         || change (digit_of _) with (Some 4) || change (digit_of _) with (Some 5)
         || change (digit_of _) with (Some 6) || change (digit_of _) with (Some 7)
         || change (digit_of _) with (Some 8) || change (digit_of _) with (Some 9);
         apply IHd; by right).
  simpl. by destruct H as [?| ->].
Qed.

Lemma uint_value_pos d p :
  uint_value d (Z.pos p) = Z.pos (Pos.of_uint_acc d p).
Proof.
  revert p. induction d; intros p; cbn [uint_value Pos.of_uint_acc]; [done|..];
    match goal with
    | |- uint_value _ ?a = Z.pos (Pos.of_uint_acc _ ?q) =>
        replace a with (Z.pos q) by lia; apply IHd
    end.
Qed.

Lemma uint_value_0 d : uint_value d 0 = Z.of_N (Pos.of_uint d).
Proof.
  induction d; cbn [uint_value Pos.of_uint]; [done|exact IHd|..];
    match goal with
    | |- uint_value _ ?a = _ =>
        let v := eval cbv in a in change a with v
    end; apply uint_value_pos.
Qed.

Lemma stoull_to_string z : Int.is_uint64 z -> stoull (to_string z) = Some z.
Proof.
  intros [Hz0 Hz1]. unfold to_string.
  assert (exists d, NilZero.string_of_int (Z.to_int z) = NilEmpty.string_of_uint d
            /\ d <> Decimal.Nil /\ uint_value d 0 = z) as (d & -> & Hd & Hv).
  { destruct z as [|p|p]; [by exists (Decimal.D0 Decimal.Nil)| |lia].
    exists (Pos.to_uint p). split_and!.
    - simpl. pose proof (DecimalPos.Unsigned.to_uint_nonnil p).
      by destruct (Pos.to_uint p).
    - apply DecimalPos.Unsigned.to_uint_nonnil.
    - by rewrite uint_value_0, DecimalPos.Unsigned.of_to. }
  assert (stoull (NilEmpty.string_of_uint d)
          = v ← digits_value (NilEmpty.string_of_uint d) 0 false;
            if 18446744073709551615 <? v then None else Some v) as ->.
  { by destruct d. }
  rewrite digits_value_uint by (by left). cbn [mbind option_bind].
  rewrite Hv. by destruct (Z.ltb_spec 18446744073709551615 z); [lia|].
Qed.

#[global] Instance to_string_inj : Inj (=) (=) to_string.
Proof.
  intros a b E.
  assert (forall z, option_map Z.of_int (NilZero.int_of_string (to_string z))
                    = Some z) as H.
  { intros z. unfold to_string. rewrite NilZero.isi.
    - simpl. by rewrite DecimalZ.of_to.
    - destruct z; simpl; try done. intros [= H].
      by apply DecimalPos.Unsigned.to_uint_nonnil in H.
    - destruct z; simpl; try done. intros [= H].
      by apply DecimalPos.Unsigned.to_uint_nonnil in H. }
  assert (Some a = Some b) as [= ->]; [|done].
  by rewrite <- !H, E.
Qed.

Example stoull_examples :
  stoull "7abc" = Some 7 /\ stoull "-1" = Some 18446744073709551615 /\
  stoull "18446744073709551616" = None /\ stoull " 7" = Some 7 /\
  stoull "+7" = Some 7 /\ stoull "abc" = None /\ stoull EmptyString = None /\
  stoull "18446744073709551615" = Some 18446744073709551615 /\
  stoull "-18446744073709551616" = None /\ stoull "- 1" = None /\
  stoull "007" = Some 7 /\ stoull "-0" = Some 0.
Proof. vm_compute. repeat split. Qed.
End DecFacts.

(** ** The worker's drain loop *)

Module DrainFacts.
Import Int Indexer.

Lemma loads_app es1 es2 : loads (es1 ++ es2) = loads es1 ++ loads es2.
Proof. apply omap_app. Qed.

Lemma handled_app es1 es2 : handled (es1 ++ es2) = handled es1 ++ handled es2.
Proof. apply omap_app. Qed.

Lemma sent_app es1 es2 : sent (es1 ++ es2) = sent es1 ++ sent es2.
Proof. apply omap_app. Qed.

Lemma sleeps_app es1 es2 : sleeps (es1 ++ es2) = sleeps es1 ++ sleeps es2.
Proof. apply omap_app. Qed.

Lemma set_404_count_app es1 es2 :
  set_404_count (es1 ++ es2) = (set_404_count es1 + set_404_count es2)%nat.
Proof. unfold set_404_count. by rewrite List.filter_app, length_app. Qed.

Lemma wrap32_uint32 z : is_uint32 (wrap32 z).
Proof. unfold is_uint32, wrap32. apply Z.mod_pos_bound. lia. Qed.

Lemma wrap32_idem z : wrap32 (wrap32 z) = wrap32 z.
Proof. unfold wrap32. apply Z.mod_mod. lia. Qed.

Lemma wrap_int64_idem z : wrap_int64 (wrap_int64 z) = wrap_int64 z.
Proof. apply IntFacts.wrap_int64_small, IntFacts.wrap_int64_range. Qed.

Lemma wrap32_succ z n : wrap32 (wrap32 (z + 1) + n) = wrap32 (z + (1 + n)).
Proof.
  unfold wrap32. rewrite Zplus_mod_idemp_l. f_equal. lia.
Qed.

Lemma wrap_int64_pred z n :
  wrap_int64 (wrap_int64 (z - 1) - n) = wrap_int64 (z - (1 + n)).
Proof.
  replace (wrap_int64 (z - 1) - n) with (wrap_int64 (z - 1) + - n) by lia.
  rewrite IntFacts.wrap_int64_add_l. f_equal. lia.
Qed.

Section drain.
Variable env : Env.

(** The loop only ever looks at the entries that carry the prefix. *)
Lemma drain_while_prefix prefix route live quit req_id it i d :
  drain env prefix route live quit req_id it i d =
    drain env prefix route live quit req_id (Store.while_prefix prefix it) i d.
Proof.
  revert i d. induction it as [|[k v] it IH]; intros i d; [done|]. simpl.
  destruct (Bytes.starts_with k prefix) eqn:E; [|done]. simpl. rewrite E.
  destruct route; [|done]. destruct (quit i); [done|]. apply IH.
Qed.

Lemma while_prefix_all prefix (it : Store.t req_json) e :
  In e (Store.while_prefix prefix it) -> Bytes.starts_with (fst e) prefix = true.
Proof.
  induction it as [|[k v] it IH]; [done|]. simpl.
  destruct (Bytes.starts_with k prefix) eqn:E; [|done].
  intros [<-|He]; [done|]. by apply IH.
Qed.

(** What applying one chunk through a route changes. *)
Lemma apply_chunk_found rpath live req_id v d :
  let d1 := apply_chunk env (Some rpath) live req_id v d in
  loads (d_events d1) = loads (d_events d) ++ [v] /\
  length (handled (d_events d1)) = S (length (handled (d_events d))) /\
  set_404_count (d_events d1) = set_404_count (d_events d) /\
  d_next_chunk_index d1 = d_next_chunk_index d /\
  d_queued_writes d1 = d_queued_writes d.
Proof.
  unfold apply_chunk. destruct (run_handler env _ _ _) as [rq2 rs2].
  destruct (live && _);
    cbn [d_events d_next_chunk_index d_queued_writes];
    rewrite ?loads_app, ?handled_app, ?set_404_count_app, ?length_app;
    cbn [loads handled set_404_count omap list_omap List.filter length app];
    rewrite ?app_nil_r, ?Nat.add_0_r; split_and!; try done; lia.
Qed.

(** The drain through a route: [applied_count] chunks are loaded and
    handled, in the order of the iterator. *)
Lemma drain_found prefix rpath live quit req_id l i d :
  (forall e, In e l -> Bytes.starts_with (fst e) prefix = true) ->
  let n := applied_count quit i (length l) in
  let d' := drain env prefix (Some rpath) live quit req_id l i d in
  loads (d_events d') = loads (d_events d) ++ map snd (take n l) /\
  length (handled (d_events d')) = (length (handled (d_events d)) + n)%nat /\
  set_404_count (d_events d') = set_404_count (d_events d) /\
  wrap32 (d_next_chunk_index d') = wrap32 (d_next_chunk_index d + Z.of_nat n) /\
  wrap_int64 (d_queued_writes d') = wrap_int64 (d_queued_writes d - Z.of_nat n).
Proof.
  revert i d. induction l as [|[k v] l IH]; intros i d Hall.
  - simpl. rewrite app_nil_r, Nat.add_0_r, Z.add_0_r, Z.sub_0_r. done.
  - assert (Bytes.starts_with k prefix = true) as Hk by (apply (Hall (k, v)); by left).
    assert (forall e, In e l -> Bytes.starts_with (fst e) prefix = true) as Hall'
      by (intros e He; apply Hall; by right).
    cbn [length applied_count drain]. rewrite Hk.
    destruct (apply_chunk_found rpath live req_id v d) as (H1 & H2 & H3 & H4 & H5).
    destruct (quit i).
    + unfold advance; cbn [d_events d_next_chunk_index d_queued_writes take map].
      rewrite H1, H2, H3, H4, H5, wrap32_idem, wrap_int64_idem.
      change (Z.of_nat 1) with 1. split_and!; try done. lia.
    + set (d1 := apply_chunk env (Some rpath) live req_id v d) in *.
      specialize (IH (S i) (advance d1) Hall').
      cbn zeta in IH. destruct IH as (I1 & I2 & I3 & I4 & I5).
      rewrite I1, I2, I3, I4, I5.
      unfold advance; cbn [d_events d_next_chunk_index d_queued_writes].
      rewrite H1, H2, H3, H4, H5.
      cbn [take map]. rewrite <- app_assoc. cbn [app].
      rewrite wrap32_succ, wrap_int64_pred.
      split_and!; try done; try lia; f_equal; lia.
Qed.

(** The counters stay within their types. *)
Lemma drain_found_range prefix rpath live quit req_id l i d :
  is_uint32 (d_next_chunk_index d) -> is_int64 (d_queued_writes d) ->
  let d' := drain env prefix (Some rpath) live quit req_id l i d in
  is_uint32 (d_next_chunk_index d') /\ is_int64 (d_queued_writes d').
Proof.
  revert i d. induction l as [|[k v] l IH]; intros i d H1 H2; [done|].
  cbn [drain]. destruct (Bytes.starts_with k prefix); [|done].
  destruct (apply_chunk_found rpath live req_id v d) as (_ & _ & _ & E1 & E2).
  destruct (quit i).
  - split; [apply wrap32_uint32|apply IntFacts.wrap_int64_range].
  - apply IH; [apply wrap32_uint32|apply IntFacts.wrap_int64_range].
Qed.

Lemma applied_count_quit quit i n j :
  (forall i', (i' < j)%nat -> quit (i + i')%nat = false) ->
  quit (i + j)%nat = true -> (j < n)%nat ->
  applied_count quit i n = S j.
Proof.
  revert i n. induction j as [|j IH]; intros i n Hbefore Hq Hn.
  - destruct n as [|n]; [lia|]. simpl. rewrite Nat.add_0_r in Hq. by rewrite Hq.
  - destruct n as [|n]; [lia|]. simpl.
    pose proof (Hbefore 0%nat ltac:(lia)) as H0. rewrite Nat.add_0_r in H0.
    rewrite H0. f_equal. apply IH; [|by rewrite Nat.add_succ_comm|lia].
    intros i' Hi'. rewrite Nat.add_succ_comm. apply Hbefore. lia.
Qed.

Lemma applied_count_never quit i n :
  (forall i', quit i' = false) -> applied_count quit i n = n.
Proof.
  intros Hq. revert i. induction n as [|n IH]; intros i; [done|].
  simpl. rewrite Hq. by rewrite IH.
Qed.

(** The drain of a request through its route, in terms of the chunks the
    worker visits. *)
Lemma drain_request_found quit st req_id r rpath :
  get_route env (route_hash (req r)) = Some rpath ->
  is_uint32 (next_chunk_index r) -> is_int64 (queued_writes st) ->
  let l := req_chunks env st req_id (next_chunk_index r) in
  let n := applied_count quit 0 (length l) in
  let d := drain_request env quit st req_id r in
  loads (d_events d) = map snd (take n l) /\
  length (handled (d_events d)) = n /\
  set_404_count (d_events d) = 0%nat /\
  d_next_chunk_index d = wrap32 (next_chunk_index r + Z.of_nat n) /\
  d_queued_writes d = wrap_int64 (queued_writes st - Z.of_nat n).
Proof.
  intros Hroute H32 H64. cbn zeta. unfold drain_request. rewrite Hroute.
  rewrite drain_while_prefix. fold (req_chunks env st req_id (next_chunk_index r)).
  pose proof (drain_found (get_req_prefix_key env req_id) rpath (is_alive (res r))
                quit req_id (req_chunks env st req_id (next_chunk_index r)) 0
                (drain_init st r)) as H.
  pose proof (drain_found_range (get_req_prefix_key env req_id) rpath
                (is_alive (res r)) quit req_id
                (req_chunks env st req_id (next_chunk_index r)) 0
                (drain_init st r) H32 H64) as [R1 R2].
  cbn zeta in H, R1, R2.
  destruct H as (H1 & H2 & H3 & H4 & H5).
  { intros e He. by eapply while_prefix_all. }
  rewrite IntFacts.wrap32_small in H4 by done.
  rewrite IntFacts.wrap_int64_small in H5 by done.
  by split_and!.
Qed.

(** Through a route no response is ever set to 404. *)
Lemma drain_request_no_404 quit st req_id r rpath :
  get_route env (route_hash (req r)) = Some rpath ->
  set_404_count (d_events (drain_request env quit st req_id r)) = 0%nat.
Proof.
  intros Hroute. unfold drain_request. rewrite Hroute, drain_while_prefix.
  destruct (drain_found (get_req_prefix_key env req_id) rpath (is_alive (res r))
              quit req_id
              (Store.while_prefix (get_req_prefix_key env req_id)
                 (request_iterator env st req_id r)) 0 (drain_init st r))
    as (_ & _ & H & _); [|exact H].
  intros e He. by eapply while_prefix_all.
Qed.

(** With no chunk left to visit the loop body does not run, whatever the
    route table says. *)
Lemma drain_request_nothing_left quit st req_id r :
  req_chunks env st req_id (next_chunk_index r) = [] ->
  drain_request env quit st req_id r = drain_init st r.
Proof.
  intros Hl. unfold drain_request. rewrite drain_while_prefix.
  change (Store.while_prefix _ (request_iterator _ _ _ _))
    with (req_chunks env st req_id (next_chunk_index r)).
  by rewrite Hl.
Qed.

(** Without a route the drain ends after the first chunk it visits. *)
Lemma drain_request_unknown quit st req_id r k v tl :
  get_route env (route_hash (req r)) = None ->
  req_chunks env st req_id (next_chunk_index r) = (k, v) :: tl ->
  drain_request env quit st req_id r =
    apply_chunk env None (is_alive (res r)) req_id v (drain_init st r).
Proof.
  intros Hroute Hl. unfold drain_request. rewrite Hroute, drain_while_prefix.
  change (Store.while_prefix _ (request_iterator _ _ _ _))
    with (req_chunks env st req_id (next_chunk_index r)).
  rewrite Hl. cbn [drain].
  assert (Bytes.starts_with k (get_req_prefix_key env req_id) = true) as ->; [|done].
  apply (while_prefix_all _
           (Store.scan (chunk_key env req_id (next_chunk_index r)) (store st)) (k, v)).
  change (Store.while_prefix _ _)
    with (req_chunks env st req_id (next_chunk_index r)).
  rewrite Hl. by left.
Qed.

End drain.
End DrainFacts.

(** ** Keys of one request *)

Module RequestKeys.
Import Int Indexer.

Lemma leb_app_r p s : Bytes.leb p (p ++ s) = true.
Proof.
  unfold Bytes.leb. induction p as [|x p IH]; simpl.
  - by destruct s.
  - by rewrite Z.compare_refl.
Qed.

Lemma scan_in {V} (st : Store.t V) k v :
  Store.wf st -> In (k, v) st -> exists tl, Store.scan k st = (k, v) :: tl.
Proof.
  induction st as [|[k' v'] st IH]; intros Hwf Hin; [done|]. simpl.
  destruct (Bytes.ltb k' k) eqn:E.
  - destruct Hin as [[= -> ->]|Hin].
    + by rewrite BytesFacts.ltb_irrefl in E.
    + apply IH; [by eapply StoreFacts.wf_tail|done].
  - destruct Hin as [[= -> ->]|Hin]; [by eexists|].
    pose proof (StoreFacts.wf_head_lt _ _ _ _ Hwf Hin) as Hlt. simpl in Hlt.
    congruence.
Qed.

Section keys.
Variable env : Env.

Lemma chunk_key_starts_with req_id seq :
  Bytes.starts_with (chunk_key env req_id seq) (get_req_prefix_key env req_id) = true.
Proof. apply BytesFacts.starts_with_app. Qed.

(** The key encoding is monotone in the chunk sequence. *)
Lemma chunk_key_compare req_id i j :
  is_uint32 i -> is_uint32 j ->
  Bytes.compare (chunk_key env req_id i) (chunk_key env req_id j) = (i ?= j).
Proof.
  intros Hi Hj. unfold chunk_key. rewrite BytesFacts.compare_app.
  by apply KeysFacts.serialize_uint32_t_compare.
Qed.

Lemma chunk_key_lt req_id i j :
  is_uint32 i -> is_uint32 j -> i < j ->
  Bytes.ltb (chunk_key env req_id i) (chunk_key env req_id j) = true.
Proof.
  intros Hi Hj Hij. unfold Bytes.ltb. rewrite chunk_key_compare by done.
  by apply Z.compare_lt_iff in Hij as ->.
Qed.

Lemma chunk_key_leb req_id i j :
  is_uint32 i -> is_uint32 j ->
  Bytes.leb (chunk_key env req_id i) (chunk_key env req_id j) = (i <=? j).
Proof.
  intros Hi Hj. unfold Bytes.leb. rewrite chunk_key_compare by done.
  unfold Z.leb. by destruct (i ?= j).
Qed.

Lemma chunk_key_inj req_id i j :
  is_uint32 i -> is_uint32 j ->
  chunk_key env req_id i = chunk_key env req_id j -> i = j.
Proof.
  intros Hi Hj E. apply Z.compare_eq. rewrite <- (chunk_key_compare req_id) by done.
  rewrite E. apply BytesFacts.compare_refl.
Qed.

(** Every chunk key of a request lies in the range its clean-up deletes. *)
Lemma chunk_key_in_range req_id seq :
  is_uint32 seq ->
  Store.in_range (get_req_prefix_key env req_id)
    (get_req_prefix_key env req_id ++ Keys.serialize_uint32_t UINT32_MAX)
    (chunk_key env req_id seq) = true.
Proof.
  intros Hs. unfold Store.in_range. apply andb_true_iff. split.
  - apply leb_app_r.
  - change (get_req_prefix_key env req_id ++ Keys.serialize_uint32_t UINT32_MAX)
      with (chunk_key env req_id UINT32_MAX).
    rewrite chunk_key_leb; [|done|unfold is_uint32, UINT32_MAX; lia].
    apply Z.leb_le. unfold is_uint32, UINT32_MAX in *. lia.
Qed.

(** The deleted range holds only keys with the request's prefix. *)
Lemma in_range_starts_with req_id k :
  Store.in_range (get_req_prefix_key env req_id)
    (get_req_prefix_key env req_id ++ Keys.serialize_uint32_t UINT32_MAX) k = true ->
  Bytes.starts_with k (get_req_prefix_key env req_id) = true.
Proof.
  unfold Store.in_range. intros H. apply andb_true_iff in H as [H1 H2].
  apply (BytesFacts.starts_with_between _ [] (Keys.serialize_uint32_t UINT32_MAX));
    [by rewrite app_nil_r|done].
Qed.

(** Prefixes of different request ids select different keys. *)
Lemma prefix_inj a b k :
  is_uint64 a -> is_uint64 b ->
  Bytes.starts_with k (get_req_prefix_key env a) = true ->
  Bytes.starts_with k (get_req_prefix_key env b) = true ->
  a = b.
Proof.
  intros Ha Hb H1 H2.
  apply BytesFacts.starts_with_inv in H1 as [s1 E1].
  apply BytesFacts.starts_with_inv in H2 as [s2 E2].
  rewrite E1 in E2. unfold get_req_prefix_key, Keys.get_req_prefix_key in E2.
  rewrite <- !app_assoc in E2. apply app_inv_head in E2.
  apply KeysFacts.serialize_uint64_t_inj; [done..|].
  unfold Keys.serialize_uint64_t in *. cbn [app] in E2.
  injection E2 as -> -> -> -> -> -> -> ->. done.
Qed.

End keys.
End RequestKeys.

(** ** The clean-up after a drain *)

Module CleanupFacts.
Import Int Indexer.

Section cleanup.
Variable env : Env.

Lemma process_request_eq quit st req_id r :
  req_res_map st !! req_id = Some r ->
  process_request env quit st req_id =
    Some {| req_res_map := delete req_id (req_res_map st);
            store :=
              Store.delete_range (get_req_prefix_key env req_id)
                (get_req_prefix_key env req_id ++ Keys.serialize_uint32_t UINT32_MAX)
                (store st);
            queues := queues st;
            num_threads := num_threads st;
            queued_writes := d_queued_writes (drain_request env quit st req_id r);
            write_log_index := d_write_log_index (drain_request env quit st req_id r);
            events := events st ++ d_events (drain_request env quit st req_id r) |}.
Proof. intros H. unfold process_request. by rewrite H. Qed.

(** No chunk key of the request survives its range delete. *)
Lemma delete_range_chunks (s : Store.t req_json) req_id seq v :
  is_uint32 seq ->
  ~ In (chunk_key env req_id seq, v)
      (Store.delete_range (get_req_prefix_key env req_id)
         (get_req_prefix_key env req_id ++ Keys.serialize_uint32_t UINT32_MAX) s).
Proof.
  intros Hs Hin. apply StoreFacts.in_delete_range in Hin as [_ Hr].
  simpl in Hr. by rewrite RequestKeys.chunk_key_in_range in Hr.
Qed.

(** The range delete of one request keeps the entries of the others. *)
Lemma delete_range_other (s : Store.t req_json) req_id other e :
  is_uint64 req_id -> is_uint64 other -> other <> req_id ->
  Bytes.starts_with (fst e) (get_req_prefix_key env other) = true ->
  In e s ->
  In e (Store.delete_range (get_req_prefix_key env req_id)
          (get_req_prefix_key env req_id ++ Keys.serialize_uint32_t UINT32_MAX) s).
Proof.
  intros H1 H2 Hne Hp Hin. apply StoreFacts.in_delete_range. split; [done|].
  destruct (Store.in_range _ _ _) eqn:E; [|done].
  apply RequestKeys.in_range_starts_with in E.
  destruct Hne. by eapply RequestKeys.prefix_inj.
Qed.

End cleanup.
End CleanupFacts.

(** ** The garbage collector *)

Module GcFacts.
Import Int Indexer.

Section gc.
Variable env : Env.



End gc.
End GcFacts.

(** ** The enqueue path *)

Module EnqueueFacts.
Import Int Indexer.

Section enqueue.
Variable env : Env.

Lemma sync_handle_store a st rq : store (sync_handle a st rq) = store st.
Proof. by destruct a. Qed.

Lemma sync_handle_queues a st rq : queues (sync_handle a st rq) = queues st.
Proof. by destruct a. Qed.

Lemma sync_handle_queued_writes a st rq :
  queued_writes (sync_handle a st rq) = queued_writes st.
Proof. by destruct a. Qed.

Lemma sync_handle_num_threads a st rq :
  num_threads (sync_handle a st rq) = num_threads st.
Proof. by destruct a. Qed.

Lemma sync_handle_events a st rq : events (sync_handle a st rq) = events st.
Proof. by destruct a. Qed.

Lemma sync_handle_lookup_ne a st rq k :
  k <> start_ts rq ->
  req_res_map (sync_handle a st rq) !! k = req_res_map st !! k.
Proof.
  intros Hk. destruct a; [|done]. simpl. by rewrite lookup_alter_ne.
Qed.

Lemma sync_handle_lookup_eq a st rq :
  req_res_map (sync_handle a st rq) !! start_ts rq =
    (fun r => if a then set_req r rq else r) <$> req_res_map st !! start_ts rq.
Proof.
  destruct a; simpl.
  - by rewrite lookup_alter_eq.
  - by destruct (req_res_map st !! start_ts rq).
Qed.

Lemma register_chunk_snd now st rq rs :
  snd (register_chunk now st rq rs) =
    match req_res_map st !! start_ts rq with
    | None => 0
    | Some r0 => num_chunks r0
    end.
Proof. unfold register_chunk. by destruct (req_res_map st !! start_ts rq). Qed.

Lemma persist_chunk_snd now aliased st rq rs :
  snd (persist_chunk env now aliased st rq rs) = snd (register_chunk now st rq rs).
Proof. unfold persist_chunk. by destruct (register_chunk now st rq rs). Qed.

Lemma persist_chunk_store now aliased st rq rs :
  store (fst (persist_chunk env now aliased st rq rs)) =
    Store.insert (chunk_key env (start_ts rq) (snd (register_chunk now st rq rs)))
      (to_json rq) (store st).
Proof.
  unfold persist_chunk, register_chunk.
  destruct (req_res_map st !! start_ts rq); cbn [fst snd];
    by rewrite sync_handle_store.
Qed.

Lemma persist_chunk_frame now aliased st rq rs :
  let st' := fst (persist_chunk env now aliased st rq rs) in
  queues st' = queues st /\ queued_writes st' = queued_writes st /\
  num_threads st' = num_threads st /\ events st' = events st.
Proof.
  unfold persist_chunk, register_chunk.
  destruct (req_res_map st !! start_ts rq); cbn [fst snd];
    by rewrite sync_handle_queues, sync_handle_queued_writes,
         sync_handle_num_threads, sync_handle_events.
Qed.

Lemma persist_chunk_lookup_ne now aliased st rq rs k :
  k <> start_ts rq ->
  req_res_map (fst (persist_chunk env now aliased st rq rs)) !! k =
    req_res_map st !! k.
Proof.
  intros Hk. unfold persist_chunk, register_chunk.
  destruct (req_res_map st !! start_ts rq); cbn [fst snd];
    rewrite sync_handle_lookup_ne by done; simpl; by rewrite lookup_insert_ne.
Qed.

(** The record of the request after a chunk has been persisted. *)
Lemma persist_chunk_lookup now aliased st rq rs :
  exists r',
    req_res_map (fst (persist_chunk env now aliased st rq rs)) !! start_ts rq = Some r' /\
    match req_res_map st !! start_ts rq with
    | None =>
        r' = {| prev_req_body := EmptyString; req := set_body rq EmptyString;
                res := rs; batch_begin_ts := now; num_chunks := 1;
                next_chunk_index := 0; is_complete := false |}
    | Some r0 =>
        num_chunks r' = wrap32 (num_chunks r0 + 1) /\
        next_chunk_index r' = next_chunk_index r0 /\
        is_complete r' = is_complete r0 /\
        batch_begin_ts r' = batch_begin_ts r0 /\
        res r' = res r0 /\
        req r' = (if aliased then set_body rq EmptyString else req r0)
    end.
Proof.
  unfold persist_chunk, register_chunk.
  destruct (req_res_map st !! start_ts rq) as [r0|] eqn:E; cbn [fst snd].
  - change (start_ts rq) with (start_ts (set_body rq EmptyString)) at 1.
    rewrite sync_handle_lookup_eq. simpl. rewrite lookup_insert_eq. simpl.
    eexists. split; [done|]. rewrite orb_false_r. by destruct aliased.
  - change (start_ts rq) with (start_ts (set_body rq EmptyString)) at 1.
    rewrite sync_handle_lookup_eq. simpl. rewrite lookup_insert_eq. simpl.
    eexists. split; [done|]. by rewrite orb_true_r.
Qed.

Lemma get_collection_name_fields rq coll rq' :
  get_collection_name env rq = Some (coll, rq') ->
  start_ts rq' = start_ts rq /\ route_hash rq' = route_hash rq.
Proof.
  unfold get_collection_name. destruct (decide _).
  - destruct (get_route env (route_hash rq)); [|done]. by intros [= <- <-].
  - by intros [= <- <-].
Qed.

(** Completion is defined exactly when the collection name is; it counts
    the writes, appends the request id to one queue and marks the record. *)
Lemma complete_request_inv aliased st rq seq st' :
  complete_request env aliased st rq seq = Some st' ->
  exists coll rq' q l,
    get_collection_name env rq = Some (coll, rq') /\
    queue_of env st coll = Some q /\
    queues st !! q = Some l /\
    queues st' = <[q := l ++ [start_ts rq]]> (queues st) /\
    queued_writes st' = wrap_int64 (queued_writes st + wrap32 (seq + 1)) /\
    store st' = store st /\ num_threads st' = num_threads st /\
    events st' = events st /\
    (forall k, k <> start_ts rq -> req_res_map st' !! k = req_res_map st !! k) /\
    req_res_map st' !! start_ts rq =
      (fun r => set_is_complete (if aliased then set_req r rq' else r) true)
        <$> req_res_map st !! start_ts rq.
Proof.
  unfold complete_request. intros H.
  destruct (get_collection_name env rq) as [[coll rq']|] eqn:Ec; [|done].
  cbn [mbind option_bind] in H.
  destruct (get_collection_name_fields _ _ _ Ec) as [Hts _].
  unfold queue_of in *. rewrite sync_handle_num_threads in H.
  cbn [num_threads set_queued_writes] in H.
  destruct (decide (num_threads st = 0%nat)); [done|].
  cbn [mbind option_bind] in H. unfold push_queue in H.
  rewrite sync_handle_queues in H. cbn [queues set_queued_writes] in H.
  destruct (queues st !! _) as [l|] eqn:El; [|done].
  cbn [mbind option_bind] in H. injection H as <-.
  eexists coll, rq', _, l. split_and!; try done.
  - unfold mark_complete. cbn [queued_writes set_req_res_map set_queues].
    by rewrite sync_handle_queued_writes.
  - unfold mark_complete. cbn [store set_req_res_map set_queues].
    by rewrite sync_handle_store.
  - unfold mark_complete. cbn [num_threads set_req_res_map set_queues].
    by rewrite sync_handle_num_threads.
  - unfold mark_complete. cbn [events set_req_res_map set_queues].
    by rewrite sync_handle_events.
  - intros k Hk. unfold mark_complete. cbn [req_res_map set_req_res_map set_queues].
    rewrite lookup_alter_ne by done.
    rewrite sync_handle_lookup_ne by (by rewrite Hts). done.
  - unfold mark_complete. cbn [req_res_map set_req_res_map set_queues].
    rewrite lookup_alter_eq. rewrite <- Hts at 1.
    rewrite sync_handle_lookup_eq. rewrite Hts. cbn [req_res_map set_queued_writes].
    by destruct (req_res_map st !! start_ts rq).
Qed.

Lemma complete_request_defined aliased st rq seq coll rq' :
  get_collection_name env rq = Some (coll, rq') ->
  num_threads st <> 0%nat -> length (queues st) = num_threads st ->
  is_Some (complete_request env aliased st rq seq).
Proof.
  intros Ec Hn Hlen. unfold complete_request. rewrite Ec.
  cbn [mbind option_bind]. unfold queue_of.
  rewrite sync_handle_num_threads. cbn [num_threads set_queued_writes].
  destruct (decide (num_threads st = 0%nat)); [done|].
  cbn [mbind option_bind]. unfold push_queue.
  rewrite sync_handle_queues. cbn [queues set_queued_writes].
  destruct (queues st !! _) as [l|] eqn:El; [done|].
  apply lookup_ge_None in El. rewrite Hlen in El.
  pose proof (Z.mod_pos_bound (wrap64 (hash_wy env coll)) (Z.of_nat (num_threads st))
                ltac:(lia)). lia.
Qed.

Lemma req_chunks_filter st id n :
  Store.wf (store st) ->
  req_chunks env st id n =
    List.filter
      (fun e => (fun k => Bytes.leb (chunk_key env id n) k
                          && Bytes.starts_with k (get_req_prefix_key env id)) (fst e))
      (store st).
Proof. intros Hwf. unfold req_chunks, chunk_key. by apply StoreFacts.while_prefix_scan. Qed.

Lemma pending_init id h st :
  Store.wf (store st) -> req_res_map st !! id = None ->
  req_chunks env st id 0 = [] -> pending env id h 0 st.
Proof. intros Hwf Hr Hl. unfold pending. by rewrite Hr, Hl. Qed.

(** Persisting one more chunk of a pending request. *)
Lemma pending_persist id h i st now aliased rq rs :
  pending env id h i st -> 0 <= i < 4294967295 ->
  start_ts rq = id -> route_hash rq = h ->
  pending env id h (i + 1) (fst (persist_chunk env now aliased st rq rs)) /\
  snd (persist_chunk env now aliased st rq rs) = i.
Proof.
  intros (Hwf & Hkeys & Hreg) Hi Hid Hh.
  assert (snd (register_chunk now st rq rs) = i) as Hseq.
  { rewrite register_chunk_snd, Hid.
    destruct (req_res_map st !! id) as [r0|]; [by destruct Hreg as (_ & ? & _)|done]. }
  split; [|by rewrite persist_chunk_snd].
  assert (Store.wf (store (fst (persist_chunk env now aliased st rq rs)))) as Hwf'.
  { rewrite persist_chunk_store. by apply StoreFacts.insert_wf. }
  split_and!; [done| |].
  - rewrite req_chunks_filter by done. rewrite persist_chunk_store, Hseq, Hid.
    rewrite (StoreFacts.filter_insert_last
               (fun k => Bytes.leb (chunk_key env id 0) k
                         && Bytes.starts_with k (get_req_prefix_key env id))).
    + rewrite <- req_chunks_filter by done. rewrite fmap_app, Hkeys.
      rewrite (seqZ_app 0 i 1) by lia. rewrite fmap_app. done.
    + done.
    + rewrite RequestKeys.chunk_key_starts_with, andb_true_r.
      rewrite RequestKeys.chunk_key_leb by (unfold is_uint32; lia).
      apply Z.leb_le. lia.
    + intros e He Hf.
      assert (e ∈ req_chunks env st id 0) as Hin.
      { rewrite req_chunks_filter by done. apply list_elem_of_In, filter_In. done. }
      assert (fst e ∈ fst <$> req_chunks env st id 0) as Hk
        by (by apply list_elem_of_fmap_2).
      rewrite Hkeys in Hk. apply list_elem_of_fmap in Hk as (j & -> & Hj).
      apply elem_of_seqZ in Hj.
      apply RequestKeys.chunk_key_lt; unfold is_uint32; lia.
  - destruct (persist_chunk_lookup now aliased st rq rs) as (r' & Hr' & Hdesc).
    rewrite Hid in Hr', Hdesc. rewrite Hr'.
    destruct (req_res_map st !! id) as [r0|].
    + destruct Hreg as (Hpos & Hn & Hnext & Hroute).
      destruct Hdesc as (D1 & D2 & _ & _ & _ & D6).
      rewrite D1, D2, D6, Hn. split_and!; [lia| |done|by destruct aliased].
      apply IntFacts.wrap32_small. unfold is_uint32. lia.
    + subst r' i. simpl. split_and!; done || lia.
Qed.

Lemma pending_complete id h i st aliased rq seq st' :
  pending env id h i st -> start_ts rq = id -> route_hash rq = h ->
  complete_request env aliased st rq seq = Some st' ->
  pending env id h i st' /\
  queued_writes st' = wrap_int64 (queued_writes st + wrap32 (seq + 1)) /\
  events st' = events st /\
  (is_Some (req_res_map st !! id) ->
   exists r, req_res_map st' !! id = Some r /\ is_complete r = true).
Proof.
  intros (Hwf & Hkeys & Hreg) Hid Hh Hc.
  apply complete_request_inv in Hc
    as (coll & rq' & q & l & Ec & _ & _ & _ & Hqw & Hstore & _ & Hev & _ & Hlk).
  destruct (get_collection_name_fields _ _ _ Ec) as [_ Hrh].
  rewrite Hid in Hlk. split_and!; [|done|done|].
  - unfold pending, req_chunks. rewrite Hstore. split_and!; [done..|].
    rewrite Hlk. destruct (req_res_map st !! id) as [r0|]; [|done]. simpl.
    destruct Hreg as (? & ? & ? & ?).
    destruct aliased; simpl; split_and!; try done; congruence.
  - intros [r0 Hr0]. rewrite Hlk, Hr0. simpl. by eexists.
Qed.

(** The chunks of a request that are not the last. *)
Lemma enqueue_body id h body :
  forall i st,
    pending env id h i st -> 0 <= i ->
    i + Z.of_nat (length body) < 4294967296 ->
    (forall c, In c body ->
       start_ts (c_req c) = id /\ route_hash (c_req c) = h /\
       last_chunk_aggregate (c_req c) = false) ->
    exists st0,
      enqueue_chunks env st body = Some st0 /\
      pending env id h (i + Z.of_nat (length body)) st0 /\
      queued_writes st0 = queued_writes st /\ queues st0 = queues st /\
      num_threads st0 = num_threads st /\ events st0 = events st.
Proof.
  induction body as [|c body IH]; intros i st Hp Hi Hlen Hall.
  - exists st. simpl. rewrite Z.add_0_r. done.
  - destruct (Hall c (or_introl eq_refl)) as (Hid & Hh & Hlast).
    cbn [enqueue_chunks length]. unfold enqueue_chunk. rewrite Hlast.
    destruct (pending_persist id h i st (c_now c) (c_aliased c) (c_req c) (c_res c))
      as [Hp' _]; [done|cbn [length] in Hlen; lia|done|done|].
    destruct (persist_chunk_frame (c_now c) (c_aliased c) st (c_req c) (c_res c))
      as (F1 & F2 & F3 & F4).
    destruct (persist_chunk env (c_now c) (c_aliased c) st (c_req c) (c_res c))
      as [st1 seq]. cbn [fst] in *. cbn [mbind option_bind].
    destruct (IH (i + 1) st1) as (st0 & E & P & Q1 & Q2 & Q3 & Q4);
      [done|lia|cbn [length] in Hlen; lia|intros c' Hc'; apply Hall; by right|].
    exists st0. rewrite E. split_and!; try congruence.
    replace (i + Z.of_nat (S (length body))) with (i + 1 + Z.of_nat (length body)) by lia.
    done.
Qed.

(** The last chunk of a request. *)
Lemma enqueue_last id h i st c coll rq' :
  pending env id h i st -> 0 <= i < 4294967295 ->
  start_ts (c_req c) = id -> route_hash (c_req c) = h ->
  last_chunk_aggregate (c_req c) = true ->
  get_collection_name env (set_body (c_req c) EmptyString) = Some (coll, rq') ->
  num_threads st <> 0%nat -> length (queues st) = num_threads st ->
  exists st1,
    enqueue_chunk env (c_now c) (c_aliased c) st (c_req c) (c_res c) = Some st1 /\
    pending env id h (i + 1) st1 /\
    queued_writes st1 = wrap_int64 (queued_writes st + (i + 1)) /\
    events st1 = events st /\
    exists r, req_res_map st1 !! id = Some r /\ is_complete r = true.
Proof.
  intros Hp Hi Hid Hh Hlast Ec Hn Hlen.
  unfold enqueue_chunk. rewrite Hlast.
  destruct (pending_persist id h i st (c_now c) (c_aliased c) (c_req c) (c_res c))
    as [Hp' Hseq]; [done..|].
  destruct (persist_chunk_frame (c_now c) (c_aliased c) st (c_req c) (c_res c))
    as (F1 & F2 & F3 & F4).
  destruct (persist_chunk env (c_now c) (c_aliased c) st (c_req c) (c_res c))
    as [st1 seq]. cbn [fst snd] in *. subst seq.
  destruct (complete_request_defined
              (c_aliased c || bool_decide (req_res_map st !! start_ts (c_req c) = None))
              st1 (set_body (c_req c) EmptyString) i coll rq' Ec)
    as [st2 Hst2]; [congruence|congruence|].
  exists st2. split; [done|].
  destruct (pending_complete id h (i + 1) st1 _ (set_body (c_req c) EmptyString)
              _ _ Hp' Hid Hh Hst2)
    as (P & Q & E & C).
  split_and!; [done| |congruence|].
  - rewrite Q, F2. f_equal. f_equal. apply IntFacts.wrap32_small.
    unfold is_uint32. lia.
  - apply C. destruct Hp' as (_ & _ & Hreg).
    destruct (req_res_map st1 !! id); [done|lia].
Qed.

Lemma get_collection_name_param rq c :
  params rq !! "collection"%string = Some c -> c <> EmptyString ->
  get_collection_name env rq = Some (c, rq).
Proof.
  intros Hc Hne. unfold get_collection_name. rewrite Hc. simpl.
  by destruct (decide (c = EmptyString)).
Qed.

Lemma enqueue_chunk_store now aliased st rq rs st1 :
  enqueue_chunk env now aliased st rq rs = Some st1 ->
  store st1 =
    Store.insert (chunk_key env (start_ts rq) (snd (register_chunk now st rq rs)))
      (to_json rq) (store st).
Proof.
  unfold enqueue_chunk. intros H.
  pose proof (persist_chunk_store now aliased st rq rs) as Hs.
  destruct (persist_chunk env now aliased st rq rs) as [stp seq].
  cbn [fst] in Hs. destruct (last_chunk_aggregate rq).
  - apply complete_request_inv in H
      as (? & ? & ? & ? & _ & _ & _ & _ & _ & Hstore & _).
    congruence.
  - congruence.
Qed.

(** A pending request with at least one chunk: what the worker will find. *)
Lemma pending_chunks id h i st :
  pending env id h i st -> 0 < i ->
  exists r v tl,
    req_res_map st !! id = Some r /\ next_chunk_index r = 0 /\
    route_hash (req r) = h /\
    req_chunks env st id (next_chunk_index r) = (chunk_key env id 0, v) :: tl /\
    length (req_chunks env st id (next_chunk_index r)) = Z.to_nat i.
Proof.
  intros (Hwf & Hkeys & Hreg) Hi.
  destruct (req_res_map st !! id) as [r|]; [|lia].
  destruct Hreg as (_ & _ & Hnext & Hh).
  assert (length (req_chunks env st id 0) = Z.to_nat i) as Hlen.
  { rewrite <- (length_fmap fst), Hkeys, length_fmap. apply length_seqZ. }
  rewrite seqZ_cons in Hkeys by done.
  destruct (req_chunks env st id 0) as [|[k v] tl] eqn:El; [done|].
  injection Hkeys as -> _. exists r, v, tl. rewrite Hnext, El. done.
Qed.

(** The wait returns at the first poll that finds the registry empty. *)
Lemma wait_registry_empty_spec sched fuel i st :
  match wait_registry_empty sched fuel i st with
  | Done st' =>
      exists n, (n <= fuel)%nat /\ st' = polled sched i n st /\
        req_res_map st' = ∅ /\
        forall m, (m < n)%nat -> req_res_map (polled sched i m st) <> ∅
  | Blocked st' =>
      st' = polled sched i fuel st /\
      forall m, (m <= fuel)%nat -> req_res_map (polled sched i m st) <> ∅
  | Undefined => False
  end.
Proof.
  revert i st. induction fuel as [|fuel IH]; intros i st; simpl.
  - destruct (decide (req_res_map st = ∅)) as [He|Hne].
    + exists 0%nat. split_and!; [lia|done|done|intros; lia].
    + split; [done|]. intros m Hm. by replace m with 0%nat by lia.
  - destruct (decide (req_res_map st = ∅)) as [He|Hne].
    + exists 0%nat. split_and!; [lia|done|done|intros; lia].
    + specialize (IH (S i) (sched i (add_events st [EvSleep 10]))).
      destruct (wait_registry_empty sched fuel (S i) _) as [st'| |st'].
      * destruct IH as (n & Hn & -> & He & Hbefore).
        exists (S n). split_and!; [lia|done|done|].
        intros [|m] Hm; [done|]. simpl. apply Hbefore. lia.
      * done.
      * destruct IH as (-> & Hall). split; [done|].
        intros [|m] Hm; [done|]. simpl. apply Hall. lia.
Qed.

(** The last chunk leaves the record of its request marked complete. *)
Lemma enqueue_chunk_complete now aliased st rq rs st1 :
  last_chunk_aggregate rq = true ->
  enqueue_chunk env now aliased st rq rs = Some st1 ->
  exists r, req_res_map st1 !! start_ts rq = Some r /\ is_complete r = true.
Proof.
  unfold enqueue_chunk. intros -> H.
  destruct (persist_chunk_lookup now aliased st rq rs) as (r' & Hr' & _).
  destruct (persist_chunk env now aliased st rq rs) as [stp seq]. cbn [fst] in *.
  apply complete_request_inv in H
    as (? & ? & ? & ? & _ & _ & _ & _ & _ & _ & _ & _ & _ & Hlk).
  cbn [start_ts set_body] in Hlk. rewrite Hlk, Hr'. simpl. by eexists.
Qed.

(** The queue of a request whose collection name is empty is the hash
    of the empty string modulo the number of workers: it is queue 0 for
    every number of workers exactly when that hash is 0. *)
Lemma empty_name_queue_zero_iff :
  (forall n, (0 < n)%nat -> Z.of_nat n < 18446744073709551616 ->
     queue_of env (init n) EmptyString = Some 0%nat) <->
  wrap64 (hash_wy env EmptyString) = 0.
Proof.
  unfold queue_of. cbn [num_threads init]. split.
  - intros H. set (h := wrap64 (hash_wy env EmptyString)) in *.
    assert (0 <= h < 18446744073709551616) as Hh
      by (apply Z.mod_pos_bound; lia).
    destruct (decide (h + 1 < 18446744073709551616)) as [Hsmall|Hbig].
    + specialize (H (Z.to_nat (h + 1)) ltac:(lia) ltac:(lia)).
      destruct (decide (Z.to_nat (h + 1) = 0%nat)); [lia|].
      injection H as H. rewrite Z2Nat.id in H by lia.
      rewrite Z.mod_small in H by lia. lia.
    + specialize (H 2%nat ltac:(lia) ltac:(lia)).
      destruct (decide (2%nat = 0%nat)); [lia|].
      injection H as H. change (Z.of_nat 2) with 2 in H.
      assert (h = 18446744073709551615) as Hmax by lia.
      rewrite Hmax in H. vm_compute in H. lia.
  - intros -> n Hn _. destruct (decide (n = 0%nat)); [lia|].
    by rewrite Z.mod_0_l by lia.
Qed.

End enqueue.
End EnqueueFacts.

(** ** Snapshots *)

Module SnapshotFacts.
Import Int Indexer.

Section snapshot.
Variable env : Env.

Lemma to_json_load j : to_json (load_from_json new_http_req j) = j.
Proof.
  destruct j. unfold to_json, load_from_json. simpl. f_equal.
  apply (left_id_L ∅ (∪)).
Qed.

(** One step of the restore loop, through [entry_restored]. *)
Lemma restore_entry_eq st qids kv :
  length (queues st) = num_threads st ->
  restore_entry env (st, qids) kv =
    match entry_restored env (num_threads st) kv with
    | None => None
    | Some (id, r, None) =>
        Some (set_req_res_map st (emplace id r (req_res_map st)), qids)
    | Some (id, r, Some (q, i)) =>
        Some (set_queues (set_req_res_map st (emplace id r (req_res_map st)))
                (alter (fun l0 => l0 ++ [i]) q (queues st)),
              qids ++ [q])
    end.
Proof.
  intros Hlen. unfold restore_entry, entry_restored.
  destruct (Dec.stoull (fst kv)) as [id|]; [|done]. cbn [mbind option_bind].
  destruct (e_is_complete (snd kv)); [|done].
  destruct (get_collection_name env _) as [[coll rq']|]; [|done].
  cbn [mbind option_bind]. unfold queue_of. cbn [num_threads set_req_res_map].
  destruct (decide (num_threads st = 0%nat)) as [|Hn]; [done|].
  cbn [mbind option_bind]. unfold push_queue. cbn [queues set_req_res_map].
  set (q := Z.to_nat (wrap64 (hash_wy env coll) `mod` Z.of_nat (num_threads st))).
  assert (q < length (queues st))%nat as Hq.
  { rewrite Hlen. unfold q.
    pose proof (Z.mod_pos_bound (wrap64 (hash_wy env coll))
                  (Z.of_nat (num_threads st)) ltac:(lia)). lia. }
  destruct (lookup_lt_is_Some_2 _ _ Hq) as [l0 Hl0]. rewrite Hl0.
  cbn [mbind option_bind]. do 3 f_equal.
  apply list_eq. intros j. destruct (decide (j = q)) as [->|Hj].
  - rewrite list_lookup_insert_eq, list_lookup_alter_eq, Hl0 by done. done.
  - by rewrite list_lookup_insert_ne, list_lookup_alter_ne.
Qed.

Lemma emplace_lookup k r (m : gmap Z req_res_t) j :
  emplace k r m !! j =
    match m !! j with
    | Some x => Some x
    | None => if decide (k = j) then Some r else None
    end.
Proof.
  unfold emplace. destruct (m !! k) as [x|] eqn:E.
  - destruct (m !! j) eqn:Ej; [done|]. destruct (decide (k = j)); [congruence|done].
  - destruct (decide (k = j)) as [->|Hne].
    + by rewrite lookup_insert_eq, E.
    + rewrite lookup_insert_ne by done. by destruct (m !! j).
Qed.

(** The restore loop over a list of items every one of which restores. *)
Lemma restore_entries_spec l :
  forall st qids,
    length (queues st) = num_threads st ->
    (forall kv, In kv l -> is_Some (entry_restored env (num_threads st) kv)) ->
    exists st' qids',
      restore_entries env (st, qids) l = Some (st', qids') /\
      num_threads st' = num_threads st /\
      length (queues st') = length (queues st) /\
      queued_writes st' = queued_writes st /\
      (forall k, req_res_map st' !! k =
                 match req_res_map st !! k with
                 | Some r => Some r
                 | None => first_entry env (num_threads st) k l
                 end) /\
      (forall q, queues st' !! q =
                 (fun l0 => l0 ++ queued_ids env (num_threads st) q l)
                   <$> queues st !! q) /\
      qids' = qids ++ entry_queues env (num_threads st) l.
Proof.
  induction l as [|kv l IH]; intros st qids Hlen Hall.
  - exists st, qids. split_and!; try done.
    + intros k. by destruct (req_res_map st !! k).
    + intros q. unfold queued_ids. simpl.
      destruct (queues st !! q); simpl; by rewrite ?app_nil_r.
    + unfold entry_queues. simpl. by rewrite app_nil_r.
  - cbn [restore_entries]. rewrite restore_entry_eq by done.
    destruct (Hall kv (or_introl eq_refl)) as [[[id r] o] Hkv].
    unfold queued_ids, entry_queues. cbn [omap list_omap first_entry].
    rewrite Hkv. destruct o as [[q0 i]|]; cbn [mbind option_bind].
    + edestruct (IH (set_queues (set_req_res_map st (emplace id r (req_res_map st)))
                       (alter (fun l0 => l0 ++ [i]) q0 (queues st)))
                    (qids ++ [q0]))
        as (st' & qids' & E & N & L & Q & R & QS & QI).
      { cbn [queues num_threads set_queues set_req_res_map].
        by rewrite length_alter. }
      { intros kv' Hkv'. apply Hall. by right. }
      cbn [queues num_threads queued_writes req_res_map set_queues set_req_res_map]
        in N, L, Q, R, QS, QI.
      exists st', qids'. rewrite E. split_and!; try done.
      * by rewrite L, length_alter.
      * intros k. rewrite R, emplace_lookup.
        destruct (req_res_map st !! k); [done|]. by destruct (decide (id = k)).
      * intros q. rewrite QS. fold (queued_ids env (num_threads st) q l).
        destruct (decide (q0 = q)) as [->|Hq].
        -- rewrite list_lookup_alter_eq. destruct (queues st !! q); simpl; [|done].
           by rewrite <- app_assoc.
        -- by rewrite list_lookup_alter_ne.
      * rewrite QI. fold (entry_queues env (num_threads st) l).
        by rewrite <- app_assoc.
    + edestruct (IH (set_req_res_map st (emplace id r (req_res_map st))) qids)
        as (st' & qids' & E & N & L & Q & R & QS & QI).
      { done. }
      { intros kv' Hkv'. apply Hall. by right. }
      cbn [queues num_threads queued_writes req_res_map set_req_res_map]
        in N, L, Q, R, QS, QI.
      exists st', qids'. rewrite E. split_and!; try done.
      intros k. rewrite R, emplace_lookup.
      destruct (req_res_map st !! k); [done|]. by destruct (decide (id = k)).
Qed.

Lemma sort_queues_spec qids :
  forall (qs : list (list Z)) q l0,
    qs !! q = Some l0 ->
    exists l',
      sort_queues qs qids !! q = Some l' /\ l' ≡ₚ l0 /\
      (q ∈ qids \/ Sorted Z.le l0 -> Sorted Z.le l').
Proof.
  induction qids as [|q0 qids IH]; intros qs q l0 Hq.
  - exists l0. split_and!; [done|done|]. intros [H|H]; [|done].
    by apply elem_of_nil in H.
  - unfold sort_queues. cbn [fold_left].
    fold (sort_queues (alter (merge_sort Z.le) q0 qs) qids).
    destruct (decide (q0 = q)) as [->|Hne].
    + destruct (IH (alter (merge_sort Z.le) q qs) q (merge_sort Z.le l0))
        as (l' & E & P & S).
      { by rewrite list_lookup_alter_eq, Hq. }
      exists l'. split_and!; [done| |].
      * by rewrite P, merge_sort_Permutation.
      * intros _. apply S. right. apply (Sorted_merge_sort Z.le).
    + destruct (IH (alter (merge_sort Z.le) q0 qs) q l0) as (l' & E & P & S).
      { by rewrite list_lookup_alter_ne. }
      exists l'. split_and!; [done|done|]. intros [H|H]; apply S; [|by right].
      left. apply elem_of_cons in H as [->|H]; done.
Qed.

Lemma in_items (m : gmap string entry_json) kv :
  In kv (items m) <-> m !! fst kv = Some (snd kv).
Proof.
  unfold items. rewrite <- list_elem_of_In, merge_sort_Permutation.
  destruct kv as [k e]. apply elem_of_map_to_list.
Qed.

Lemma in_items_serialized st kv :
  In kv (items (s_req_res_map (serialize_state st))) <->
  exists k r, req_res_map st !! k = Some r /\ kv = (Dec.to_string k, serialize_entry r).
Proof.
  rewrite in_items. unfold serialize_state. cbn [s_req_res_map].
  rewrite lookup_kmap_Some by apply _. split.
  - intros (k & Hk & He). apply lookup_fmap_Some in He as (r & Hr & Hm).
    exists k, r. split; [done|]. destruct kv. simpl in *. congruence.
  - intros (k & r & Hr & ->). exists k. split; [done|].
    apply lookup_fmap_Some. by exists r.
Qed.

Lemma entry_restored_serialized n k r :
  is_uint64 k ->
  entry_restored env n (Dec.to_string k, serialize_entry r) =
    if is_complete r then
      match get_collection_name env (load_from_json new_http_req (to_json (req r))) with
      | Some (coll, rq') =>
          if decide (n = 0%nat) then None
          else Some (k, restored_record env (serialize_entry r) rq',
                     Some (Z.to_nat (wrap64 (hash_wy env coll) mod Z.of_nat n),
                           start_ts rq'))
      | None => None
      end
    else Some (k, restored_record env (serialize_entry r)
                    (load_from_json new_http_req (to_json (req r))), None).
Proof.
  intros Hk. unfold entry_restored. cbn [fst snd].
  rewrite DecFacts.stoull_to_string by done.
  cbn [mbind option_bind serialize_entry e_is_complete e_req].
  destruct (is_complete r); [|done].
  by destruct (get_collection_name env _) as [[coll rq']|].
Qed.

Lemma first_entry_Some n k l x :
  first_entry env n k l = Some x ->
  exists kv o, In kv l /\ entry_restored env n kv = Some (k, x, o).
Proof.
  induction l as [|kv l IH]; [done|]. cbn [first_entry].
  destruct (entry_restored env n kv) as [[[id r] o]|] eqn:E.
  - destruct (decide (id = k)) as [->|Hne].
    + intros [= ->]. exists kv, o. split; [by left|done].
    + intros H. destruct (IH H) as (kv' & o' & Hin & E'). exists kv', o'.
      split; [by right|done].
  - intros H. destruct (IH H) as (kv' & o' & Hin & E'). exists kv', o'.
    split; [by right|done].
Qed.

Lemma first_entry_None n k l kv x o :
  first_entry env n k l = None -> In kv l ->
  entry_restored env n kv <> Some (k, x, o).
Proof.
  induction l as [|kv' l IH]; [done|]. cbn [first_entry].
  intros H [->|Hin].
  - intros E. rewrite E in H. by destruct (decide (k = k)).
  - apply IH; [|done]. destruct (entry_restored env n kv') as [[[id r] o']|]; [|done].
    by destruct (decide (id = k)).
Qed.

Lemma elem_of_queued_ids n q l id :
  id ∈ queued_ids env n q l <->
  exists kv x k, In kv l /\ entry_restored env n kv = Some (k, x, Some (q, id)).
Proof.
  unfold queued_ids. rewrite list_elem_of_omap. split.
  - intros (kv & Hin & H). apply list_elem_of_In in Hin.
    destruct (entry_restored env n kv) as [[[k x] [[q' i]|]]|] eqn:E; try done.
    destruct (decide (q' = q)) as [->|]; [|done]. injection H as ->.
    by exists kv, x, k.
  - intros (kv & x & k & Hin & E). exists kv. split; [by apply list_elem_of_In|].
    rewrite E. by destruct (decide (q = q)).
Qed.

Lemma queued_ids_nil n q l :
  q ∉ entry_queues env n l -> queued_ids env n q l = [].
Proof.
  unfold entry_queues, queued_ids. induction l as [|kv l IH]; [done|].
  cbn [omap list_omap].
  destruct (entry_restored env n kv) as [[[k x] [[q' i]|]]|]; try done.
  intros H. apply not_elem_of_cons in H as [Hq H].
  destruct (decide (q' = q)); [congruence|]. by apply IH.
Qed.

Lemma restored_req_fields rq :
  let rq0 := load_from_json new_http_req (to_json rq) in
  start_ts rq0 = start_ts rq /\ route_hash rq0 = route_hash rq /\
  params rq0 = params rq /\ body rq0 = body rq.
Proof.
  cbn zeta. unfold load_from_json, to_json. simpl. split_and!; try done.
  apply (left_id_L ∅ (∪)).
Qed.

Lemma get_collection_name_defined rq :
  default EmptyString (params rq !! "collection"%string) <> EmptyString \/
  is_Some (get_route env (route_hash rq)) ->
  is_Some (get_collection_name env rq).
Proof.
  unfold get_collection_name. intros [H|[rp H]].
  - by destruct (decide _).
  - rewrite H. by destruct (decide _).
Qed.

Lemma get_collection_name_nonempty rq coll rq' :
  default EmptyString (params rq !! "collection"%string) <> EmptyString ->
  get_collection_name env rq = Some (coll, rq') -> rq' = rq.
Proof.
  unfold get_collection_name. intros H. destruct (decide _); [done|].
  by intros [= _ ->].
Qed.

Lemma entry_restored_serialized_inv n k r id x o :
  is_uint64 k ->
  entry_restored env n (Dec.to_string k, serialize_entry r) = Some (id, x, o) ->
  id = k /\ x = restored_record env (serialize_entry r) (req x) /\
  (is_complete r = true ->
   exists coll,
     get_collection_name env (load_from_json new_http_req (to_json (req r)))
       = Some (coll, req x) /\
     queue_of env (init n) coll
       = Some (Z.to_nat (wrap64 (hash_wy env coll) mod Z.of_nat n)) /\
     o = Some (Z.to_nat (wrap64 (hash_wy env coll) mod Z.of_nat n), start_ts (req x))) /\
  (is_complete r = false ->
   req x = load_from_json new_http_req (to_json (req r)) /\ o = None).
Proof.
  intros Hk. rewrite entry_restored_serialized by done.
  destruct (is_complete r).
  - destruct (get_collection_name env _) as [[coll rq']|]; [|done].
    destruct (decide (n = 0%nat)) as [|Hn]; [done|]. intros [= <- <- <-].
    split_and!; try done. intros _. exists coll. split_and!; try done.
    unfold queue_of. cbn [num_threads init]. by destruct (decide (n = 0%nat)).
  - intros [= <- <- <-]. by split_and!.
Qed.

(** A request read back from its serialized form is the request itself,
    but for the flag [proceed_req], which the document does not carry. *)
Lemma load_new_to_json rq :
  load_from_json new_http_req (to_json rq)
  = {| start_ts := start_ts rq; route_hash := route_hash rq;
       params := params rq; body := body rq;
       last_chunk_aggregate := last_chunk_aggregate rq;
       log_index := log_index rq; proceed_req := false |}.
Proof.
  unfold load_from_json, to_json. simpl. f_equal. apply (left_id_L ∅ (∪)).
Qed.

(** The request [get_collection_name] returns is its argument with the
    name written to the [collection] parameter. *)
Lemma get_collection_name_cases rq coll rq' :
  get_collection_name env rq = Some (coll, rq') ->
  rq' = set_params rq (<["collection"%string := coll]> (params rq)) /\
  (default EmptyString (params rq !! "collection"%string) <> EmptyString ->
   rq' = rq /\ params rq !! "collection"%string = Some coll).
Proof.
  unfold get_collection_name. destruct (decide _) as [E|E].
  - destruct (get_route env (route_hash rq)); [|done]. intros [= <- <-].
    split; [done|]. by intros H.
  - intros [= <- <-].
    assert (params rq !! "collection"%string
            = Some (default EmptyString (params rq !! "collection"%string))) as H.
    { by destruct (params rq !! "collection"%string). }
    split; [|done]. rewrite insert_id by done. by destruct rq.
Qed.

(** The name does not depend on [proceed_req]: the restored request gets
    the name of the serialized one. *)
Lemma get_collection_name_load rq coll rq0' :
  get_collection_name env (load_from_json new_http_req (to_json rq))
    = Some (coll, rq0') ->
  exists rq', get_collection_name env rq = Some (coll, rq') /\
              to_json rq0' = to_json rq'.
Proof.
  rewrite load_new_to_json. unfold get_collection_name.
  cbn [params route_hash body]. destruct (decide _) as [E|E].
  - destruct (get_route env (route_hash rq)); [|done]. intros [= <- <-].
    by eexists.
  - intros [= <- <-]. by eexists.
Qed.

Lemma NoDup_omap_inj {A B} (f : A -> option B) l :
  NoDup l ->
  (forall x y z, x ∈ l -> y ∈ l -> f x = Some z -> f y = Some z -> x = y) ->
  NoDup (omap f l).
Proof.
  induction 1 as [|a l Ha Hl IH]; intros Hinj; [constructor|].
  assert (NoDup (omap f l)) as IH'.
  { apply IH. intros x y z Hx Hy. apply Hinj; by right. }
  cbn [omap list_omap]. destruct (f a) as [b|] eqn:E; [|done].
  constructor; [|done]. intros Hb.
  apply list_elem_of_omap in Hb as (y & Hy & Ey).
  assert (a = y) as ->; [|done].
  apply (Hinj a y b); [by left|by right|done|done].
Qed.

(** The id appended to a queue for an item of a keyed registry is the
    item's key. *)
Lemma queued_id_key n k r k' x q id :
  is_uint64 k -> start_ts (req r) = k ->
  entry_restored env n (Dec.to_string k, serialize_entry r)
    = Some (k', x, Some (q, id)) ->
  id = k.
Proof.
  intros Hk Hst Ex.
  destruct (entry_restored_serialized_inv _ _ _ _ _ _ Hk Ex) as (_ & _ & Hc & Hi).
  destruct (is_complete r); [|by destruct (Hi eq_refl)].
  destruct (Hc eq_refl) as (coll & G & _ & [= _ ->]).
  rewrite load_new_to_json in G. unfold get_collection_name in G.
  cbn [params route_hash body] in G. destruct (decide _).
  - destruct (get_route env (route_hash (req r))); [|done].
    by injection G as _ <-.
  - by injection G as _ <-.
Qed.

(** No id is appended twice to a queue. *)
Lemma queued_ids_NoDup st n q :
  (forall k r, req_res_map st !! k = Some r ->
     start_ts (req r) = k /\ is_uint64 k) ->
  NoDup (queued_ids env n q (items (s_req_res_map (serialize_state st)))).
Proof.
  intros Hwf. unfold queued_ids. apply NoDup_omap_inj.
  - unfold items. rewrite merge_sort_Permutation. apply NoDup_map_to_list.
  - intros kv1 kv2 id H1 H2 E1 E2.
    apply list_elem_of_In, in_items_serialized in H1 as (k1 & r1 & Hr1 & ->).
    apply list_elem_of_In, in_items_serialized in H2 as (k2 & r2 & Hr2 & ->).
    destruct (Hwf k1 r1 Hr1) as [S1 U1]. destruct (Hwf k2 r2 Hr2) as [S2 U2].
    destruct (entry_restored env n (Dec.to_string k1, serialize_entry r1))
      as [[[i1 x1] [[q1 j1]|]]|] eqn:X1; try done.
    destruct (entry_restored env n (Dec.to_string k2, serialize_entry r2))
      as [[[i2 x2] [[q2 j2]|]]|] eqn:X2; try done.
    destruct (decide (q1 = q)); [|done]. destruct (decide (q2 = q)); [|done].
    injection E1 as ->. injection E2 as ->.
    apply (queued_id_key _ _ _ _ _ _ _ U1 S1) in X1.
    apply (queued_id_key _ _ _ _ _ _ _ U2 S2) in X2.
    assert (k1 = k2) as -> by congruence. congruence.
Qed.

End snapshot.
End SnapshotFacts.

(** ** The invariant *)

Module InvariantFacts.
Import Int Indexer.

Section invariant.
Variable env : Env.

Lemma init_consistent n : consistent (init n).
Proof.
  unfold consistent. simpl. split_and!; [done|apply length_replicate|].
  intros k r H. by rewrite lookup_empty in H.
Qed.

Lemma enqueue_chunk_consistent now aliased st rq rs st' :
  consistent st ->
  enqueue_chunk env now aliased st rq rs = Some st' ->
  consistent st'.
Proof.
  intros (Hwf & Hlen & Hkey) H. unfold enqueue_chunk in H.
  pose proof (EnqueueFacts.persist_chunk_store env now aliased st rq rs) as Hs.
  destruct (EnqueueFacts.persist_chunk_frame env now aliased st rq rs)
    as (F1 & _ & F3 & _).
  destruct (EnqueueFacts.persist_chunk_lookup env now aliased st rq rs)
    as (r' & Hr' & Hdesc).
  pose proof (EnqueueFacts.persist_chunk_lookup_ne env now aliased st rq rs) as Hne.
  destruct (persist_chunk env now aliased st rq rs) as [stp seq]. cbn [fst] in *.
  assert (start_ts (req r') = start_ts rq) as Hr'key.
  { destruct (req_res_map st !! start_ts rq) as [r0|] eqn:E.
    - destruct Hdesc as (_ & _ & _ & _ & _ & ->).
      destruct aliased; [done|]. by apply Hkey.
    - by subst r'. }
  assert (consistent stp) as (Hwfp & Hlenp & Hkeyp).
  { split_and!.
    - rewrite Hs. by apply StoreFacts.insert_wf.
    - congruence.
    - intros k r Hr. destruct (decide (k = start_ts rq)) as [->|Hk].
      + congruence.
      + rewrite Hne in Hr by done. by apply Hkey. }
  destruct (last_chunk_aggregate rq); [|by injection H as <-].
  apply EnqueueFacts.complete_request_inv in H
    as (coll & rq' & q & l & Ec & _ & _ & Hq & _ & Hst & Hnt & _ & Hother & Hlk).
  destruct (EnqueueFacts.get_collection_name_fields env _ _ _ Ec) as [Hts _].
  cbn [start_ts set_body] in *. split_and!.
  - by rewrite Hst.
  - by rewrite Hq, length_insert, Hnt.
  - intros k r Hr. destruct (decide (k = start_ts rq)) as [->|Hk].
    + rewrite Hlk, Hr' in Hr. injection Hr as <-. cbn [req set_is_complete].
      destruct (aliased || _); simpl; congruence.
    + rewrite Hother in Hr by done. by apply Hkeyp.
Qed.

Lemma process_request_consistent quit st req_id st' :
  consistent st -> process_request env quit st req_id = Some st' ->
  consistent st'.
Proof.
  intros (Hwf & Hlen & Hkey) H. unfold process_request in H.
  destruct (req_res_map st !! req_id) as [r|]; [|done]. injection H as <-.
  unfold consistent. cbn [store queues num_threads req_res_map]. split_and!.
  - by apply StoreFacts.delete_range_wf.
  - done.
  - intros k r' Hr'. apply lookup_delete_Some in Hr' as [_ Hr']. by apply Hkey.
Qed.

Lemma gc_tick_consistent seconds_elapsed clock st :
  consistent st -> consistent (gc_tick env seconds_elapsed clock st).
Proof.
  intros (Hwf & Hlen & Hkey). unfold gc_tick.
  destruct (_ <? _); [|done]. unfold gc_scan, consistent.
  cbn [store queues num_threads req_res_map set_store set_req_res_map].
  split_and!; [|done|].
  - generalize (List.filter (fun kr => gc_expired env clock (fst kr) (snd kr))
                  (map_to_list (req_res_map st))).
    intros l. revert Hwf. generalize (store st).
    induction l as [|kr l IH]; intros s Hs; [done|]. simpl. apply IH.
    by apply StoreFacts.delete_range_wf.
  - intros k r Hr. apply map_lookup_filter_Some in Hr as [Hr _]. by apply Hkey.
Qed.

End invariant.
End InvariantFacts.

(** * The claims *)

Module Claims.
Import Int Indexer.

Section claims.
Variable env : Env.

(** C1.  A worker that takes up a request whose route hash has no route,
    and whose next chunk is persisted, loads that one chunk, sets the
    response to 404, sends exactly one STREAM_RESPONSE message when the
    request is live and none otherwise, applies no further chunk, and then
    still deletes every chunk key of the request and erases its registry
    entry. *)
Theorem C1_unknown_route quit st req_id r v :
  req_res_map st !! req_id = Some r ->
  get_route env (route_hash (req r)) = None ->
  Store.wf (store st) ->
  In (chunk_key env req_id (next_chunk_index r), v) (store st) ->
  exists st',
    process_request env quit st req_id = Some st' /\
    d_res (drain_request env quit st req_id r) = set_404 (res r) /\
    status_code (d_res (drain_request env quit st req_id r)) = 404 /\
    events st' =
      events st ++ [EvLoad v; EvSet404] ++
        (if is_alive (res r)
         then [EvSend (STREAM_RESPONSE_MESSAGE req_id (set_404 (res r)))]
         else []) /\
    (forall seq v', is_uint32 seq -> ~ In (chunk_key env req_id seq, v') (store st')) /\
    req_res_map st' !! req_id = None.
Proof.
  intros Hr Hroute Hwf Hin.
  rewrite (CleanupFacts.process_request_eq env quit st req_id r Hr).
  eexists. split; [reflexivity|].
  destruct (RequestKeys.scan_in _ _ _ Hwf Hin) as [tl Htl].
  assert (drain_request env quit st req_id r =
          apply_chunk env None (is_alive (res r)) req_id v (drain_init st r)) as Hd.
  { unfold drain_request, request_iterator. rewrite Hroute, Htl.
    cbn [drain]. by rewrite RequestKeys.chunk_key_starts_with. }
  rewrite Hd. unfold apply_chunk.
  cbn [events store req_res_map d_res d_events d_async_res drain_init].
  split_and!.
  - by destruct (is_alive (res r)).
  - by destruct (is_alive (res r)).
  - destruct (is_alive (res r)); cbn [d_events andb]; [|done].
    replace (negb (bool_decide (is_Some (@None route_path)))) with true; [done|].
    symmetry. apply negb_true_iff, bool_decide_eq_false. by intros [? ?].
  - intros seq v' Hs. by apply CleanupFacts.delete_range_chunks.
  - apply lookup_delete_eq.
Qed.

(** C2, as the code has it: when the quit flag is first read as set after
    chunk [j] of a drain through a route, the worker has applied exactly
    the chunks up to [j], and the counters show it; the clean-up then runs
    all the same: every chunk key of the request is deleted and its record
    erased.  Records and queues are otherwise unchanged, and so are the
    chunks of other requests. *)
Theorem C2_quit_stops_drain_then_cleans_up quit st req_id r rpath j :
  req_res_map st !! req_id = Some r ->
  get_route env (route_hash (req r)) = Some rpath ->
  is_uint32 (next_chunk_index r) -> is_int64 (queued_writes st) ->
  (j < length (req_chunks env st req_id (next_chunk_index r)))%nat ->
  (forall i, (i < j)%nat -> quit i = false) -> quit j = true ->
  let d := drain_request env quit st req_id r in
  loads (d_events d) =
    map snd (take (S j) (req_chunks env st req_id (next_chunk_index r))) /\
  length (handled (d_events d)) = S j /\
  d_next_chunk_index d = wrap32 (next_chunk_index r + Z.of_nat (S j)) /\
  d_queued_writes d = wrap_int64 (queued_writes st - Z.of_nat (S j)) /\
  exists st',
    process_request env quit st req_id = Some st' /\
    req_res_map st' = delete req_id (req_res_map st) /\
    (forall seq v, is_uint32 seq -> ~ In (chunk_key env req_id seq, v) (store st')) /\
    (forall other e,
        is_uint64 req_id -> is_uint64 other -> other <> req_id ->
        Bytes.starts_with (fst e) (get_req_prefix_key env other) = true ->
        In e (store st) -> In e (store st')) /\
    queues st' = queues st /\
    queued_writes st' = wrap_int64 (queued_writes st - Z.of_nat (S j)).
Proof.
  intros Hr Hroute H32 H64 Hj Hbefore Hq. cbn zeta.
  destruct (DrainFacts.drain_request_found env quit st req_id r rpath Hroute H32 H64)
    as (H1 & H2 & _ & H4 & H5).
  rewrite (DrainFacts.applied_count_quit quit 0 _ j) in H1, H2, H4, H5
    by (done || (intros; by apply Hbefore)).
  split_and!; try done.
  rewrite (CleanupFacts.process_request_eq env quit st req_id r Hr).
  eexists. split; [reflexivity|]. cbn [req_res_map store queues queued_writes].
  split_and!; try done.
  - intros seq v Hs. by apply CleanupFacts.delete_range_chunks.
  - intros other e. apply CleanupFacts.delete_range_other.
Qed.



(** C8.  A request of [k] chunks that is enqueued and then fully applied
    through its route: [queued_writes] is unchanged by the chunks before
    the last, grows by [k] when the last chunk is enqueued, and the worker
    takes 1 off for each of the [k] chunks it applies, so that the count
    ends where it started. *)
Theorem C8_queued_writes_net_zero st id h rpath body last quit :
  let k := Z.of_nat (length (body ++ [last])) in
  Store.wf (store st) ->
  is_int64 (queued_writes st) -> is_int64 (queued_writes st + k) ->
  req_res_map st !! id = None -> req_chunks env st id 0 = [] ->
  num_threads st <> 0%nat -> length (queues st) = num_threads st ->
  k < 4294967296 ->
  (forall c, In c body ->
     start_ts (c_req c) = id /\ route_hash (c_req c) = h /\
     last_chunk_aggregate (c_req c) = false) ->
  start_ts (c_req last) = id -> route_hash (c_req last) = h ->
  last_chunk_aggregate (c_req last) = true ->
  get_route env h = Some rpath ->
  (forall i, quit i = false) ->
  exists st0 st1 st2 es,
    enqueue_chunks env st body = Some st0 /\
    queued_writes st0 = queued_writes st /\
    enqueue_chunk env (c_now last) (c_aliased last) st0 (c_req last) (c_res last)
      = Some st1 /\
    queued_writes st1 = queued_writes st + k /\
    process_request env quit st1 id = Some st2 /\
    events st2 = events st ++ es /\
    Z.of_nat (length (handled es)) = k /\
    queued_writes st2 = queued_writes st.
Proof.
  intros k Hwf Hq Hqk Hnone Hempty Hn Hlen Hk Hbody Hid Hh Hlast Hroute Hquit.
  assert (k = Z.of_nat (length body) + 1) as Hk'
    by (unfold k; rewrite length_app; simpl; lia).
  destruct (EnqueueFacts.enqueue_body env id h body 0 st) as
    (st0 & E0 & P0 & Q0 & QS0 & N0 & V0);
    [by apply EnqueueFacts.pending_init|lia|lia|done|].
  assert (exists coll rq',
            get_collection_name env (set_body (c_req last) EmptyString)
              = Some (coll, rq')) as (coll & rq' & Ec).
  { unfold get_collection_name. destruct (decide _); [|by eexists _, _].
    cbn [route_hash set_body]. rewrite Hh, Hroute. by eexists _, _. }
  destruct (EnqueueFacts.enqueue_last env id h _ st0 last coll rq' P0)
    as (st1 & E1 & P1 & Q1 & V1 & _); [lia|done|done|done|done|congruence|congruence|].
  destruct (EnqueueFacts.pending_chunks env id h _ st1 P1)
    as (r & v & tl & Hr & Hnext & Hrh & _ & Hlenl); [lia|].
  assert (queued_writes st1 = queued_writes st + k) as Hq1.
  { rewrite Q1, Q0, Z.add_0_l, <- Hk'. by apply IntFacts.wrap_int64_small. }
  destruct (DrainFacts.drain_request_found env quit st1 id r rpath)
    as (_ & D2 & _ & _ & D5);
    [congruence|rewrite Hnext; unfold is_uint32; lia|by rewrite Hq1|].
  rewrite DrainFacts.applied_count_never in D2, D5 by done.
  rewrite Hlenl in D2, D5.
  exists st0, st1. eexists. exists (d_events (drain_request env quit st1 id r)).
  split_and!; [done|done|done|done| | | |].
  - by apply CleanupFacts.process_request_eq.
  - cbn [events]. by rewrite V1, V0.
  - rewrite D2. lia.
  - cbn [queued_writes]. rewrite D5, Hq1.
    replace (queued_writes st + k - Z.of_nat (Z.to_nat (0 + Z.of_nat (length body) + 1)))
      with (queued_writes st) by lia.
    by apply IntFacts.wrap_int64_small.
Qed.

(** C10.  A request of [k] chunks whose route is not found (its
    collection parameter is set, so that it can be queued at all) is
    counted with [k] queued writes when its last chunk is enqueued; the
    worker leaves the loop at the first chunk before any decrement, so the
    count keeps the [k] although the chunks are deleted and the record is
    erased. *)
Theorem C10_unknown_route_leaks_queued_writes st id h body last quit coll :
  let k := Z.of_nat (length (body ++ [last])) in
  Store.wf (store st) ->
  is_int64 (queued_writes st) -> is_int64 (queued_writes st + k) ->
  req_res_map st !! id = None -> req_chunks env st id 0 = [] ->
  num_threads st <> 0%nat -> length (queues st) = num_threads st ->
  k < 4294967296 ->
  (forall c, In c body ->
     start_ts (c_req c) = id /\ route_hash (c_req c) = h /\
     last_chunk_aggregate (c_req c) = false) ->
  start_ts (c_req last) = id -> route_hash (c_req last) = h ->
  last_chunk_aggregate (c_req last) = true ->
  params (c_req last) !! "collection"%string = Some coll -> coll <> EmptyString ->
  get_route env h = None ->
  exists st0 st1 st2 es,
    enqueue_chunks env st body = Some st0 /\
    enqueue_chunk env (c_now last) (c_aliased last) st0 (c_req last) (c_res last)
      = Some st1 /\
    queued_writes st1 = queued_writes st + k /\
    process_request env quit st1 id = Some st2 /\
    events st2 = events st ++ es /\
    length (loads es) = 1%nat /\ handled es = [] /\
    queued_writes st2 = queued_writes st + k /\
    (forall seq v, is_uint32 seq -> ~ In (chunk_key env id seq, v) (store st2)) /\
    req_res_map st2 !! id = None.
Proof.
  intros k Hwf Hq Hqk Hnone Hempty Hn Hlen Hk Hbody Hid Hh Hlast Hc Hne Hroute.
  assert (k = Z.of_nat (length body) + 1) as Hk'
    by (unfold k; rewrite length_app; simpl; lia).
  destruct (EnqueueFacts.enqueue_body env id h body 0 st) as
    (st0 & E0 & P0 & Q0 & QS0 & N0 & V0);
    [by apply EnqueueFacts.pending_init|lia|lia|done|].
  destruct (EnqueueFacts.enqueue_last env id h _ st0 last coll
              (set_body (c_req last) EmptyString) P0)
    as (st1 & E1 & P1 & Q1 & V1 & _);
    [lia|done|done|done|by apply EnqueueFacts.get_collection_name_param
    |congruence|congruence|].
  destruct (EnqueueFacts.pending_chunks env id h _ st1 P1)
    as (r & v & tl & Hr & Hnext & Hrh & Hl & _); [lia|].
  assert (queued_writes st1 = queued_writes st + k) as Hq1.
  { rewrite Q1, Q0, Z.add_0_l, <- Hk'. by apply IntFacts.wrap_int64_small. }
  assert (drain_request env quit st1 id r =
          apply_chunk env None (is_alive (res r)) id v (drain_init st1 r)) as Hd.
  { eapply DrainFacts.drain_request_unknown; [congruence|exact Hl]. }
  exists st0, st1. eexists. exists (d_events (drain_request env quit st1 id r)).
  split_and!; [done|done|done| | | | | | |].
  - by apply CleanupFacts.process_request_eq.
  - cbn [events]. by rewrite V1, V0.
  - rewrite Hd. unfold apply_chunk. by destruct (is_alive (res r) && _).
  - rewrite Hd. unfold apply_chunk. by destruct (is_alive (res r) && _).
  - cbn [queued_writes]. rewrite Hd. unfold apply_chunk.
    by destruct (is_alive (res r) && _).
  - intros seq v' Hs. by apply CleanupFacts.delete_range_chunks.
  - apply lookup_delete_eq.
Qed.

(** C7.  A last chunk with request id 0: once the record is marked
    complete, [enqueue] polls the registry, sleeping 10 ms after every
    poll that finds it non-empty, and goes on only from a poll that finds
    it empty; REQUEST_PROCEED is sent from that state, if at all, and a
    call that is still waiting has sent nothing.  If some poll within the
    observed schedule finds the registry empty, the call returns. *)
Theorem C7_old_serialized_request_waits now aliased sched fuel st rq rs st1 :
  start_ts rq = 0 -> last_chunk_aggregate rq = true ->
  enqueue_chunk env now aliased st rq rs = Some st1 ->
  (exists r, req_res_map st1 !! 0 = Some r /\ is_complete r = true) /\
  match enqueue env now aliased sched fuel st rq rs with
  | Done st' =>
      exists n, (n <= fuel)%nat /\
        (forall m, (m < n)%nat -> req_res_map (polled sched 0 m st1) <> ∅) /\
        req_res_map (polled sched 0 n st1) = ∅ /\
        req_res_map st' = ∅ /\
        st' = (if proceed_req rq
               then add_events (polled sched 0 n st1)
                      [EvSend (REQUEST_PROCEED_MESSAGE 0)]
               else polled sched 0 n st1)
  | Blocked st' =>
      st' = polled sched 0 fuel st1 /\
      forall m, (m <= fuel)%nat -> req_res_map (polled sched 0 m st1) <> ∅
  | Undefined => False
  end /\
  ((exists n, (n <= fuel)%nat /\ req_res_map (polled sched 0 n st1) = ∅) ->
   exists st', enqueue env now aliased sched fuel st rq rs = Done st').
Proof.
  intros Hid Hlast Henq.
  split; [rewrite <- Hid; by eapply EnqueueFacts.enqueue_chunk_complete|].
  unfold enqueue. rewrite Henq, Hlast, Hid. cbn [andb].
  rewrite bool_decide_eq_true_2 by done.
  pose proof (EnqueueFacts.wait_registry_empty_spec sched fuel 0 st1) as Hw.
  destruct (wait_registry_empty sched fuel 0 st1) as [st'| |st'].
  - destruct Hw as (n & Hn & -> & He & Hbefore). split.
    + exists n. split_and!; try done. by destruct (proceed_req rq).
    + intros _. by eexists.
  - done.
  - destruct Hw as (-> & Hall). split; [done|].
    intros (n & Hn & He). by destruct (Hall n Hn).
Qed.

(** C9.  With an empty [collection] parameter, [get_collection_name]
    looks the route up, ignores whether it was found and dereferences it:
    the call is defined exactly when the route exists.  Whenever it is
    defined for such a request, a worker draining a record with that
    route hash never takes the branch that sets the 404 response. *)
Theorem C9_collection_name_requires_route rq quit st req_id r :
  default EmptyString (params rq !! "collection"%string) = EmptyString ->
  route_hash (req r) = route_hash rq ->
  (get_collection_name env rq = None <-> get_route env (route_hash rq) = None) /\
  (is_Some (get_collection_name env rq) ->
   set_404_count (d_events (drain_request env quit st req_id r)) = 0%nat).
Proof.
  intros Hempty Hrh.
  assert (get_collection_name env rq = None <-> get_route env (route_hash rq) = None)
    as Hiff.
  { unfold get_collection_name. rewrite Hempty.
    destruct (decide (EmptyString = EmptyString)); [|done].
    by destruct (get_route env (route_hash rq)). }
  split; [done|]. intros [x Hx].
  destruct (get_route env (route_hash rq)) as [rpath|] eqn:Hroute.
  - apply (DrainFacts.drain_request_no_404 env quit st req_id r rpath). congruence.
  - destruct Hiff as [_ Hnone]. rewrite Hnone in Hx; done.
Qed.

(** C4, as the code has it.  For a registry whose records are keyed by
    the [start_ts] of their request, with fields in the range of their
    types, and whose complete records have a [collection] parameter or a
    route, [load_state] on a fresh indexer restores from the document of
    [serialize_state] the counter [queued_writes] and, for every request
    id, a record with the same [batch_begin_ts], [num_chunks],
    [next_chunk_index], [is_complete] and [prev_req_body] and a fresh
    response.  Its request has every serialized field of the original;
    only for a complete record without a [collection] parameter the
    parameters differ, in that [collection] holds the name
    [get_collection_name] resolved, so that the serialized request is that
    of the request [get_collection_name] returns.  Every queue is in
    ascending order, holds no id twice and holds exactly the ids of the
    complete records whose collection name hashes to it; incomplete
    records are in no queue. *)
Theorem C4_snapshot_round_trip st n :
  n <> 0%nat -> is_int64 (queued_writes st) ->
  (forall k r, req_res_map st !! k = Some r ->
     start_ts (req r) = k /\ is_uint64 k /\ is_uint64 (batch_begin_ts r) /\
     is_uint32 (num_chunks r) /\ is_uint32 (next_chunk_index r) /\
     (is_complete r = true ->
      default EmptyString (params (req r) !! "collection"%string) <> EmptyString \/
      is_Some (get_route env (route_hash (req r))))) ->
  exists st',
    load_state env (init n) (serialize_state st) = Some st' /\
    queued_writes st' = queued_writes st /\
    (forall k, req_res_map st !! k = None -> req_res_map st' !! k = None) /\
    (forall k r, req_res_map st !! k = Some r ->
       exists r' p',
         req_res_map st' !! k = Some r' /\
         batch_begin_ts r' = batch_begin_ts r /\
         num_chunks r' = num_chunks r /\
         next_chunk_index r' = next_chunk_index r /\
         is_complete r' = is_complete r /\
         prev_req_body r' = prev_req_body r /\
         res r' = restored_res env /\
         req r' = {| start_ts := start_ts (req r);
                     route_hash := route_hash (req r);
                     params := p'; body := body (req r);
                     last_chunk_aggregate := last_chunk_aggregate (req r);
                     log_index := log_index (req r); proceed_req := false |} /\
         (is_complete r = false \/
          default EmptyString (params (req r) !! "collection"%string) <> EmptyString ->
          p' = params (req r) /\ to_json (req r') = to_json (req r)) /\
         (is_complete r = true ->
          default EmptyString (params (req r) !! "collection"%string) = EmptyString ->
          exists coll rq',
            get_collection_name env (req r) = Some (coll, rq') /\
            p' = <["collection"%string := coll]> (params (req r)) /\
            to_json (req r') = to_json rq')) /\
    (forall q, (q < n)%nat ->
       exists l,
         queues st' !! q = Some l /\ Sorted Z.le l /\ NoDup l /\
         forall id,
           id ∈ l <->
           exists r coll rq',
             req_res_map st !! id = Some r /\ is_complete r = true /\
             get_collection_name env (load_from_json new_http_req (to_json (req r)))
               = Some (coll, rq') /\
             queue_of env (init n) coll = Some q).
Proof.
  intros Hn Hqw Hwf.
  set (l := items (s_req_res_map (serialize_state st))).
  assert (forall k r, req_res_map st !! k = Some r ->
            start_ts (req r) = k /\ is_uint64 k) as Hkey.
  { intros k r Hr. by destruct (Hwf k r Hr) as (? & ? & _). }
  assert (forall k r, req_res_map st !! k = Some r -> is_uint64 k) as Hu.
  { intros k r Hr. by destruct (Hkey k r Hr). }
  assert (forall k r, req_res_map st !! k = Some r ->
            is_complete r = true ->
            is_Some (get_collection_name env
                       (load_from_json new_http_req (to_json (req r))))) as Hdef.
  { intros k r Hr Hc. destruct (Hwf k r Hr) as (_ & _ & _ & _ & _ & Hroute).
    destruct (SnapshotFacts.restored_req_fields (req r)) as (_ & F2 & F3 & _).
    apply SnapshotFacts.get_collection_name_defined. rewrite F2, F3. by apply Hroute. }
  assert (forall kv, In kv l -> is_Some (entry_restored env n kv)) as Hall.
  { intros kv Hkv. apply SnapshotFacts.in_items_serialized in Hkv as (k & r & Hr & ->).
    rewrite SnapshotFacts.entry_restored_serialized by (by eapply Hu).
    destruct (is_complete r) eqn:Ec; [|done].
    destruct (Hdef k r Hr Ec) as [[coll rq'] E]. rewrite E.
    by destruct (decide (n = 0%nat)). }
  destruct (SnapshotFacts.restore_entries_spec env l
              (set_queued_writes (init n) (wrap_int64 (queued_writes st))) [])
    as (st1 & qids & E & N & L & Q & R & QS & QI).
  { simpl. apply length_replicate. }
  { exact Hall. }
  cbn [num_threads queues queued_writes req_res_map set_queued_writes init]
    in N, L, Q, R, QS, QI.
  unfold load_state. cbn [s_queued_writes serialize_state]. fold l. rewrite E.
  cbn [mbind option_bind]. eexists. split; [reflexivity|].
  cbn [queued_writes req_res_map queues set_queues].
  assert (forall k r x o,
            req_res_map st !! k = Some r ->
            entry_restored env n (Dec.to_string k, serialize_entry r) = Some (k, x, o) ->
            first_entry env n k l = Some x) as Hfirst.
  { intros k r x o Hr Ex.
    destruct (first_entry env n k l) as [y|] eqn:F.
    - apply SnapshotFacts.first_entry_Some in F as (kv & o' & Hin & Ekv).
      apply SnapshotFacts.in_items_serialized in Hin as (k' & r' & Hr' & ->).
      destruct (SnapshotFacts.entry_restored_serialized_inv env _ _ _ _ _ _
                  (Hu _ _ Hr') Ekv) as (-> & _). congruence.
    - exfalso. eapply SnapshotFacts.first_entry_None; [exact F| |exact Ex].
      apply SnapshotFacts.in_items_serialized. by exists k, r. }
  split_and!.
  - rewrite Q. by apply IntFacts.wrap_int64_small.
  - intros k Hk. rewrite R, lookup_empty.
    destruct (first_entry env n k l) as [y|] eqn:F; [|done].
    apply SnapshotFacts.first_entry_Some in F as (kv & o' & Hin & Ekv).
    apply SnapshotFacts.in_items_serialized in Hin as (k' & r' & Hr' & ->).
    destruct (SnapshotFacts.entry_restored_serialized_inv env _ _ _ _ _ _
                (Hu _ _ Hr') Ekv) as (-> & _). congruence.
  - intros k r Hr. rewrite R, lookup_empty.
    destruct (Hall (Dec.to_string k, serialize_entry r)) as [[[id x] o] Ex].
    { apply SnapshotFacts.in_items_serialized. by exists k, r. }
    destruct (SnapshotFacts.entry_restored_serialized_inv env _ _ _ _ _ _
                (Hu _ _ Hr) Ex) as (-> & Hx & Hc & Hi).
    rewrite (Hfirst k r x o Hr Ex). exists x, (params (req x)). split; [done|].
    destruct (Hwf k r Hr) as (_ & _ & B1 & B2 & B3 & _).
    assert (req x = set_params (load_from_json new_http_req (to_json (req r)))
                      (params (req x)) /\
            (is_complete r = false \/
             default EmptyString (params (req r) !! "collection"%string)
               <> EmptyString ->
             params (req x) = params (req r)) /\
            (is_complete r = true ->
             exists coll rq',
               get_collection_name env (req r) = Some (coll, rq') /\
               params (req x) = <["collection"%string := coll]> (params (req r)) /\
               to_json (req x) = to_json rq')) as (Q1 & Q2 & Q3).
    { destruct (is_complete r) eqn:Ec.
      - destruct (Hc eq_refl) as (coll & G & _).
        destruct (SnapshotFacts.get_collection_name_load env _ _ _ G)
          as (rq' & G' & J).
        destruct (SnapshotFacts.get_collection_name_cases env _ _ _ G) as [Eq Hne].
        rewrite SnapshotFacts.load_new_to_json in Eq, Hne.
        cbn [params] in Hne. split_and!.
        + rewrite Eq at 1. by rewrite SnapshotFacts.load_new_to_json, Eq.
        + intros [|Hp]; [done|]. by destruct (Hne Hp) as [-> _].
        + intros _. exists coll, rq'. split_and!; [done| |done]. by rewrite Eq.
      - destruct (Hi eq_refl) as [-> _]. rewrite SnapshotFacts.load_new_to_json.
        split_and!; try done. }
    rewrite SnapshotFacts.load_new_to_json in Q1.
    rewrite Hx at 1 2 3 4 5 6.
    cbn [restored_record serialize_entry batch_begin_ts num_chunks
           next_chunk_index is_complete prev_req_body req res
           e_batch_begin_ts e_num_chunks e_next_chunk_index
           e_is_complete e_prev_req_body].
    split_and!; try done.
    + unfold wrap64. apply Z.mod_small. exact B1.
    + by apply IntFacts.wrap32_small.
    + by apply IntFacts.wrap32_small.
    + intros Hcase. split; [by apply Q2|]. rewrite Q1. unfold to_json, set_params.
      cbn [start_ts route_hash params body last_chunk_aggregate log_index].
      by rewrite (Q2 Hcase).
    + intros Ec _. by apply Q3.
  - intros q Hq.
    assert (queues st1 !! q = Some (queued_ids env n q l)) as Hq1.
    { rewrite QS, lookup_replicate_2 by done. done. }
    destruct (SnapshotFacts.sort_queues_spec qids (queues st1) q _ Hq1)
      as (l' & E' & P & S).
    exists l'. split_and!; [done| | |].
    + apply S. destruct (decide (q ∈ qids)) as [|Hnot]; [by left|right].
      rewrite QI in Hnot. cbn [app] in Hnot.
      rewrite SnapshotFacts.queued_ids_nil by done. constructor.
    + rewrite P. by apply SnapshotFacts.queued_ids_NoDup.
    + intros id. rewrite P, SnapshotFacts.elem_of_queued_ids. split.
      * intros (kv & x & k & Hin & Ex).
        apply SnapshotFacts.in_items_serialized in Hin as (k' & r & Hr & ->).
        destruct (SnapshotFacts.entry_restored_serialized_inv env _ _ _ _ _ _
                    (Hu _ _ Hr) Ex) as (-> & _ & Hc & Hi).
        destruct (is_complete r) eqn:Ec; [|by destruct (Hi eq_refl)].
        destruct (Hc eq_refl) as (coll & G & Hqo & [= Hqq Hid]).
        destruct (EnqueueFacts.get_collection_name_fields env _ _ _ G) as [T _].
        destruct (SnapshotFacts.restored_req_fields (req r)) as (F1 & _).
        destruct (Hwf k' r Hr) as (W & _).
        assert (id = k') as -> by congruence.
        exists r, coll, (req x). split_and!; try done. by rewrite Hqo, Hqq.
      * intros (r & coll & rq' & Hr & Ec & G & Hqo).
        destruct (Hall (Dec.to_string id, serialize_entry r)) as [[[k x] o] Ex].
        { apply SnapshotFacts.in_items_serialized. by exists id, r. }
        destruct (SnapshotFacts.entry_restored_serialized_inv env _ _ _ _ _ _
                    (Hu _ _ Hr) Ex) as (-> & _ & Hc & _).
        destruct (Hc Ec) as (coll' & G' & Hqo' & ->).
        assert (coll' = coll /\ req x = rq') as [-> Hrq] by (split; congruence).
        destruct (EnqueueFacts.get_collection_name_fields env _ _ _ G) as [T _].
        destruct (SnapshotFacts.restored_req_fields (req r)) as (F1 & _).
        destruct (Hwf id r Hr) as (W & _).
        exists (Dec.to_string id, serialize_entry r), x, id. split.
        { apply SnapshotFacts.in_items_serialized. by exists id, r. }
        rewrite Ex. rewrite Hqo in Hqo'. injection Hqo' as <-.
        assert (start_ts (req x) = id) as -> by congruence. done.
Qed.

End claims.

Lemma C1_unknown_route_witness :
  exists st',
    process_request Demo.env (fun _ => false) (Demo.two_chunks 9 true) 5 = Some st' /\
    sent (events st') =
      [STREAM_RESPONSE_MESSAGE 5 (set_404 (Demo.response true))] /\
    loads (events st') = [to_json (Demo.request 5 9 false "a")] /\
    store st' = [] /\
    req_res_map st' !! 5 = None.
Proof.
  destruct (C1_unknown_route Demo.env (fun _ => false) (Demo.two_chunks 9 true) 5
              (Demo.record 5 9 2 0 true true)
              (to_json (Demo.request 5 9 false "a")))
    as (st' & H1 & _ & _ & H2 & _ & H3).
  - reflexivity.
  - reflexivity.
  - reflexivity.
  - left. reflexivity.
  - exists st'. split; [exact H1|].
    assert (Some st' = process_request Demo.env (fun _ => false)
                         (Demo.two_chunks 9 true) 5) as E by (by rewrite H1).
    vm_compute in E. injection E as ->. vm_compute. by split_and!.
Defined.

(** Request 5 has two persisted chunks and a route; the quit flag is set
    after the first.  The second chunk is never applied, and yet neither
    it nor the record is left to resume from. *)
Lemma C2_counterexample :
  exists st',
    process_request Demo.env (fun _ => true) (Demo.two_chunks 1 true) 5 = Some st' /\
    In (chunk_key Demo.env 5 1, to_json (Demo.request 5 1 true "b"))
       (store (Demo.two_chunks 1 true)) /\
    loads (events st') = [to_json (Demo.request 5 1 false "a")] /\
    req_res_map st' !! 5 = None /\
    store st' = [].
Proof.
  eexists. split; [reflexivity|]. split; [right; left; reflexivity|].
  vm_compute. by split_and!.
Qed.

Lemma C2_quit_stops_drain_then_cleans_up_witness :
  exists st',
    process_request Demo.env (fun _ => true) (Demo.two_chunks 1 true) 5 = Some st' /\
    req_res_map st' = delete 5 (req_res_map (Demo.two_chunks 1 true)) /\
    queued_writes st' = 1.
Proof.
  destruct (C2_quit_stops_drain_then_cleans_up Demo.env (fun _ => true)
              (Demo.two_chunks 1 true) 5 (Demo.record 5 1 2 0 true true)
              {| handler := other_handler 0; async_res := false |} 0)
    as (_ & _ & _ & _ & st' & H1 & H2 & _ & _ & _ & H3).
  - reflexivity.
  - reflexivity.
  - unfold is_uint32. simpl. lia.
  - unfold is_int64. simpl. lia.
  - vm_compute. lia.
  - intros i Hi. lia.
  - reflexivity.
  - exists st'. split; [exact H1|]. split; [exact H2|]. rewrite H3. reflexivity.
Defined.




Lemma C8_queued_writes_net_zero_witness :
  exists st0 st1 st2 es,
    enqueue_chunks Demo.env (init 2) [Demo.chunk_call 5 1 false "a"] = Some st0 /\
    queued_writes st0 = 0 /\
    enqueue_chunk Demo.env 1000 false st0 (Demo.request 5 1 true "b")
      (Demo.response true) = Some st1 /\
    queued_writes st1 = 2 /\
    process_request Demo.env (fun _ => false) st1 5 = Some st2 /\
    events st2 = es /\
    Z.of_nat (length (handled es)) = 2 /\
    queued_writes st2 = 0.
Proof.
  apply (C8_queued_writes_net_zero Demo.env (init 2) 5 1
           {| handler := other_handler 0; async_res := false |}
           [Demo.chunk_call 5 1 false "a"] (Demo.chunk_call 5 1 true "b")
           (fun _ => false)).
  - reflexivity.
  - unfold is_int64. simpl. lia.
  - unfold is_int64. simpl. lia.
  - reflexivity.
  - reflexivity.
  - discriminate.
  - reflexivity.
  - simpl. lia.
  - intros c [<-|[]]. by split_and!.
  - reflexivity.
  - reflexivity.
  - reflexivity.
  - reflexivity.
  - reflexivity.
Defined.

Lemma C10_unknown_route_leaks_queued_writes_witness :
  exists st0 st1 st2 es,
    enqueue_chunks Demo.env (init 2) [Demo.chunk_call 5 9 false "a"] = Some st0 /\
    enqueue_chunk Demo.env 1000 false st0 (Demo.request 5 9 true "b")
      (Demo.response true) = Some st1 /\
    queued_writes st1 = 2 /\
    process_request Demo.env (fun _ => false) st1 5 = Some st2 /\
    events st2 = es /\
    length (loads es) = 1%nat /\ handled es = [] /\
    queued_writes st2 = 2 /\
    (forall seq v, is_uint32 seq -> ~ In (chunk_key Demo.env 5 seq, v) (store st2)) /\
    req_res_map st2 !! 5 = None.
Proof.
  apply (C10_unknown_route_leaks_queued_writes Demo.env (init 2) 5 9
           [Demo.chunk_call 5 9 false "a"] (Demo.chunk_call 5 9 true "b")
           (fun _ => false) "books"%string).
  - reflexivity.
  - unfold is_int64. simpl. lia.
  - unfold is_int64. simpl. lia.
  - reflexivity.
  - reflexivity.
  - discriminate.
  - reflexivity.
  - simpl. lia.
  - intros c [<-|[]]. by split_and!.
  - reflexivity.
  - reflexivity.
  - reflexivity.
  - reflexivity.
  - discriminate.
  - reflexivity.
Defined.

Lemma C7_old_serialized_request_waits_witness :
  exists st',
    enqueue Demo.env 1000 false Demo.others_finish 3 (init 2)
      (Demo.request 0 1 true "a") (Demo.response true) = Done st' /\
    req_res_map st' = ∅ /\
    sleeps (events st') = [10] /\
    sent (events st') = [REQUEST_PROCEED_MESSAGE 0].
Proof.
  destruct (C7_old_serialized_request_waits Demo.env 1000 false Demo.others_finish
              3 (init 2) (Demo.request 0 1 true "a") (Demo.response true)
              Demo.old_serialized_enqueued) as (_ & _ & H).
  - reflexivity.
  - reflexivity.
  - vm_compute. reflexivity.
  - destruct H as [st' Hst'].
    + exists 1%nat. split; [lia|]. vm_compute. reflexivity.
    + exists st'. split; [exact Hst'|].
      vm_compute in Hst'. injection Hst' as <-. vm_compute. by split_and!.
Defined.

Lemma C9_collection_name_requires_route_witness :
  is_Some (get_collection_name Demo.env (Demo.anonymous_request 5 1)) /\
  get_collection_name Demo.env (Demo.anonymous_request 5 9) = None /\
  set_404_count
    (d_events (drain_request Demo.env (fun _ => false) (Demo.two_chunks 1 true) 5
                 (Demo.anonymous_record 5 1))) = 0%nat.
Proof.
  destruct (C9_collection_name_requires_route Demo.env (Demo.anonymous_request 5 1)
              (fun _ => false) (Demo.two_chunks 1 true) 5 (Demo.anonymous_record 5 1))
    as [_ H2]; [reflexivity|reflexivity|].
  destruct (C9_collection_name_requires_route Demo.env (Demo.anonymous_request 5 9)
              (fun _ => false) (Demo.two_chunks 1 true) 5 (Demo.anonymous_record 5 9))
    as [[_ H1] _]; [reflexivity|reflexivity|].
  split_and!.
  - vm_compute. by eexists.
  - apply H1. reflexivity.
  - apply H2. vm_compute. by eexists.
Defined.

(** Two registries that do not survive the round trip.  The complete
    record of a request without [collection] parameter whose route hash 9
    has no route: [load_state] dereferences the route it did not find.
    The same with route hash 1, which has a route: the restored request
    has gained a [collection] parameter. *)
Lemma C4_counterexample :
  load_state Demo.env (init 2)
    (serialize_state (Demo.holding 7 (Demo.anonymous_record 7 9))) = None /\
  exists st' r',
    load_state Demo.env (init 2)
      (serialize_state (Demo.holding 7 (Demo.anonymous_record 7 1))) = Some st' /\
    req_res_map st' !! 7 = Some r' /\
    to_json (req r') <> to_json (req (Demo.anonymous_record 7 1)).
Proof.
  split; [vm_compute; reflexivity|].
  eexists. eexists. split; [vm_compute; reflexivity|].
  split; [vm_compute; reflexivity|].
  intros H. apply (f_equal (fun j => j_params j !! "collection"%string)) in H.
  vm_compute in H. discriminate H.
Qed.

Lemma C4_snapshot_round_trip_witness :
  exists st',
    load_state Demo.env (init 2) (serialize_state Demo.two_requests) = Some st' /\
    queued_writes st' = 1 /\
    queues st' = [ []; [5] ] /\
    (exists r', req_res_map st' !! 6 = Some r' /\ is_complete r' = false).
Proof.
  destruct (C4_snapshot_round_trip Demo.env Demo.two_requests 2)
    as (st' & H1 & H2 & _ & H4 & _).
  - discriminate.
  - unfold is_int64. simpl. lia.
  - intros k r Hr. unfold Demo.two_requests in Hr. cbn [req_res_map] in Hr.
    apply lookup_insert_Some in Hr as [[<- <-]|[_ Hr]];
      [|apply lookup_singleton_Some in Hr as [<- <-]];
      unfold is_uint64, is_uint32; simpl; split_and!; try lia; try done.
    intros _. left. vm_compute. discriminate.
  - exists st'. split; [exact H1|]. split; [exact H2|]. split.
    + vm_compute in H1. injection H1 as <-. reflexivity.
    + destruct (H4 6 Demo.young_record) as (r' & p' & G1 & _ & _ & _ & G2 & _);
        [vm_compute; reflexivity|].
      exists r'. split; [exact G1|exact G2].
Defined.

End Claims.

(** * Further properties of the code *)

Module MoreFacts.
Import Int Indexer.

Section more.
Variable env : Env.

Lemma enqueue_chunk_cases now aliased st rq rs :
  enqueue_chunk env now aliased st rq rs =
    if last_chunk_aggregate rq then
      complete_request env
        (aliased || bool_decide (req_res_map st !! start_ts rq = None))
        (fst (persist_chunk env now aliased st rq rs))
        (set_body rq EmptyString)
        (snd (persist_chunk env now aliased st rq rs))
    else Some (fst (persist_chunk env now aliased st rq rs)).
Proof.
  unfold enqueue_chunk. by destruct (persist_chunk env now aliased st rq rs).
Qed.

Lemma enqueue_chunk_lookup_ne now aliased st rq rs st1 k :
  enqueue_chunk env now aliased st rq rs = Some st1 -> k <> start_ts rq ->
  req_res_map st1 !! k = req_res_map st !! k.
Proof.
  rewrite enqueue_chunk_cases. intros H Hk.
  pose proof (EnqueueFacts.persist_chunk_lookup_ne env now aliased st rq rs k Hk) as Hp.
  destruct (last_chunk_aggregate rq).
  - apply EnqueueFacts.complete_request_inv in H
      as (? & ? & ? & ? & _ & _ & _ & _ & _ & _ & _ & _ & Hother & _).
    rewrite Hother by done. done.
  - injection H as <-. done.
Qed.

Lemma worker_iteration_consistent i quit st st' :
  consistent st -> worker_iteration env i quit st = Some st' -> consistent st'.
Proof.
  intros Hc H. unfold worker_iteration in H.
  destruct (queues st !! i) as [[|req_id rest]|]; [| |done].
  - injection H as <-. exact Hc.
  - destruct (process_request env quit _ req_id) as [st1|] eqn:E; [|done].
    injection H as <-.
    apply (InvariantFacts.process_request_consistent env) in E.
    + exact E.
    + destruct Hc as (H1 & H2 & H3). unfold consistent.
      cbn [store queues num_threads req_res_map set_queues].
      by rewrite length_insert.
Qed.

Lemma step_consistent st st' : step env st st' -> consistent st -> consistent st'.
Proof.
  intros [now aliased st0 rq rs st1 H|i quit st0 st1 H|elapsed clock st0] Hc.
  - by eapply InvariantFacts.enqueue_chunk_consistent.
  - by eapply worker_iteration_consistent.
  - by apply InvariantFacts.gc_tick_consistent.
Qed.

(** Keys of different requests or different chunks differ. *)
Lemma chunk_key_inj_both a b i j :
  is_uint64 a -> is_uint64 b -> is_uint32 i -> is_uint32 j ->
  chunk_key env a i = chunk_key env b j -> a = b /\ i = j.
Proof.
  intros Ha Hb Hi Hj E.
  assert (a = b) as ->.
  { apply (RequestKeys.prefix_inj env a b (chunk_key env a i)); try done.
    - apply RequestKeys.chunk_key_starts_with.
    - rewrite E. apply RequestKeys.chunk_key_starts_with. }
  split; [done|]. by eapply RequestKeys.chunk_key_inj.
Qed.

Lemma polled_registry sched i n st :
  (forall j s, req_res_map (sched j s) = req_res_map s) ->
  req_res_map (polled sched i n st) = req_res_map st.
Proof.
  intros Hs. revert i st. induction n as [|n IH]; intros i st; [done|].
  simpl. by rewrite IH, Hs.
Qed.

(** What one chunk applied through a route sends. *)
Lemma apply_chunk_found_sent rpath live req_id v d :
  let d1 := apply_chunk env (Some rpath) live req_id v d in
  exists ms,
    sent (d_events d1) = sent (d_events d) ++ ms /\
    length ms = (if live && negb (async_res rpath) then 1 else 0)%nat /\
    Forall (fun m => exists rs, m = STREAM_RESPONSE_MESSAGE req_id rs) ms.
Proof.
  unfold apply_chunk. destruct (run_handler env _ _ _) as [rq2 rs2].
  cbn [d_async_res].
  replace (negb (bool_decide (is_Some (Some rpath)))) with false
    by (symmetry; apply negb_false_iff, bool_decide_eq_true; by eexists).
  cbn [orb]. destruct (live && negb (async_res rpath));
    cbn [d_events]; rewrite ?DrainFacts.sent_app; cbn [sent omap list_omap].
  - eexists. split; [rewrite <- app_assoc; reflexivity|].
    split; [done|]. repeat constructor. by eexists.
  - exists []. rewrite !app_nil_r. by split_and!.
Qed.

Lemma drain_found_sent prefix rpath live quit req_id l i d :
  (forall e, In e l -> Bytes.starts_with (fst e) prefix = true) ->
  let d' := drain env prefix (Some rpath) live quit req_id l i d in
  exists ms,
    sent (d_events d') = sent (d_events d) ++ ms /\
    length ms =
      (if live && negb (async_res rpath)
       then applied_count quit i (length l) else 0)%nat /\
    Forall (fun m => exists rs, m = STREAM_RESPONSE_MESSAGE req_id rs) ms.
Proof.
  revert i d. induction l as [|[k v] l IH]; intros i d Hall.
  - exists []. cbn. rewrite app_nil_r. split_and!; try done.
    by destruct (live && _).
  - assert (Bytes.starts_with k prefix = true) as Hk by (apply (Hall (k, v)); by left).
    assert (forall e, In e l -> Bytes.starts_with (fst e) prefix = true) as Hall'
      by (intros e He; apply Hall; by right).
    cbn [length applied_count drain]. rewrite Hk.
    destruct (apply_chunk_found_sent rpath live req_id v d) as (ms1 & S1 & L1 & A1).
    set (d1 := apply_chunk env (Some rpath) live req_id v d) in *.
    destruct (quit i).
    + exists ms1. split_and!; try done.
    + destruct (IH (S i) (advance d1) Hall') as (ms2 & S2 & L2 & A2).
      exists (ms1 ++ ms2). split_and!.
      * rewrite S2. unfold advance. cbn [d_events]. by rewrite S1, app_assoc.
      * rewrite length_app, L1, L2. by destruct (live && _).
      * by apply Forall_app.
Qed.




Lemma restore_entry_keeps st qids kv st' qids' :
  restore_entry env (st, qids) kv = Some (st', qids') ->
  (forall k r, req_res_map st !! k = Some r -> req_res_map st' !! k = Some r) /\
  queued_writes st' = queued_writes st /\ store st' = store st /\
  events st' = events st.
Proof.
  unfold restore_entry. intros H.
  destruct (Dec.stoull (fst kv)) as [id|]; [|done]. cbn [mbind option_bind] in H.
  destruct (e_is_complete (snd kv)).
  - destruct (get_collection_name env _) as [[coll rq']|]; [|done].
    cbn [mbind option_bind] in H.
    destruct (queue_of env _ coll) as [q|]; [|done]. cbn [mbind option_bind] in H.
    destruct (push_queue q _ _) as [qs|]; [|done]. cbn [mbind option_bind] in H.
    injection H as <- _. cbn. split_and!; try done.
    intros k r Hr. by rewrite SnapshotFacts.emplace_lookup, Hr.
  - injection H as <- _. cbn. split_and!; try done.
    intros k r Hr. by rewrite SnapshotFacts.emplace_lookup, Hr.
Qed.

Lemma restore_entries_keeps l :
  forall st qids st' qids',
    restore_entries env (st, qids) l = Some (st', qids') ->
    (forall k r, req_res_map st !! k = Some r -> req_res_map st' !! k = Some r) /\
    queued_writes st' = queued_writes st /\ store st' = store st /\
    events st' = events st.
Proof.
  induction l as [|kv l IH]; intros st qids st' qids' H.
  - by injection H as <- _.
  - cbn [restore_entries] in H.
    destruct (restore_entry env (st, qids) kv) as [[st1 q1]|] eqn:E; [|done].
    cbn [mbind option_bind] in H.
    destruct (restore_entry_keeps _ _ _ _ _ E) as (A1 & A2 & A3 & A4).
    destruct (IH _ _ _ _ H) as (B1 & B2 & B3 & B4).
    split_and!; try congruence. intros k r Hr. by apply B1, A1.
Qed.

End more.
End MoreFacts.

Module Extras.
Import Int Indexer.

Section extras.
Variable env : Env.

(** X1.  Whatever the write thread, the workers and the garbage collector
    do, one after the other, to a freshly constructed indexer, the store
    stays in ascending key order, there is one queue for each worker, and
    every record is registered under the [start_ts] of its request. *)
Theorem X1_invariant_of_reachable_states n st :
  rtc (step env) (init n) st -> consistent st.
Proof.
  revert st. apply (rtc_ind_r (R := step env) consistent).
  - apply InvariantFacts.init_consistent.
  - intros y z _ Hyz Hy. by eapply MoreFacts.step_consistent.
Qed.

(** X2.  A chunk that is not the last of its batch is always enqueued
    without error and without waiting: it reaches no queue, leaves
    [queued_writes] alone, does not change [is_complete], adds 1 to
    [num_chunks] (or creates the record with 1 chunk, nothing applied, at
    the current time), and REQUEST_PROCEED is sent exactly when the
    transport asked for it. *)
Theorem X2_non_last_chunk now aliased sched fuel st rq rs :
  last_chunk_aggregate rq = false ->
  exists st1,
    enqueue_chunk env now aliased st rq rs = Some st1 /\
    enqueue env now aliased sched fuel st rq rs =
      Done (if proceed_req rq
            then add_events st1 [EvSend (REQUEST_PROCEED_MESSAGE (start_ts rq))]
            else st1) /\
    queues st1 = queues st /\ queued_writes st1 = queued_writes st /\
    events st1 = events st /\
    exists r',
      req_res_map st1 !! start_ts rq = Some r' /\
      match req_res_map st !! start_ts rq with
      | None =>
          is_complete r' = false /\ num_chunks r' = 1 /\
          next_chunk_index r' = 0 /\ batch_begin_ts r' = now
      | Some r0 =>
          is_complete r' = is_complete r0 /\
          num_chunks r' = wrap32 (num_chunks r0 + 1) /\
          next_chunk_index r' = next_chunk_index r0 /\
          batch_begin_ts r' = batch_begin_ts r0
      end.
Proof.
  intros Hlast. exists (fst (persist_chunk env now aliased st rq rs)).
  assert (enqueue_chunk env now aliased st rq rs =
          Some (fst (persist_chunk env now aliased st rq rs))) as He
    by (by rewrite MoreFacts.enqueue_chunk_cases, Hlast).
  destruct (EnqueueFacts.persist_chunk_frame env now aliased st rq rs)
    as (F1 & F2 & _ & F4).
  destruct (EnqueueFacts.persist_chunk_lookup env now aliased st rq rs)
    as (r' & Hr' & Hdesc).
  split_and!; try done.
  - unfold enqueue. by rewrite He, Hlast.
  - exists r'. split; [done|].
    destruct (req_res_map st !! start_ts rq) as [r0|].
    + by destruct Hdesc as (? & ? & ? & ? & _).
    + by subst r'.
Qed.

(** X3.  [enqueue] writes the chunk under the key of its request id and
    chunk sequence and takes nothing else away: every other entry of the
    store is kept, in particular every persisted chunk of another request
    or with another sequence number, and the records of all other
    requests are unchanged. *)
Theorem X3_enqueue_persists_and_keeps now aliased st rq rs st1 :
  Store.wf (store st) ->
  enqueue_chunk env now aliased st rq rs = Some st1 ->
  let seq :=
    match req_res_map st !! start_ts rq with
    | None => 0
    | Some r0 => num_chunks r0
    end in
  In (chunk_key env (start_ts rq) seq, to_json rq) (store st1) /\
  (forall e, In e (store st) -> fst e <> chunk_key env (start_ts rq) seq ->
     In e (store st1)) /\
  (forall e, In e (store st1) ->
     e = (chunk_key env (start_ts rq) seq, to_json rq) \/ In e (store st)) /\
  (forall a i v,
     is_uint64 a -> is_uint64 (start_ts rq) -> is_uint32 i -> is_uint32 seq ->
     a <> start_ts rq \/ i <> seq ->
     In (chunk_key env a i, v) (store st) -> In (chunk_key env a i, v) (store st1)) /\
  (forall k, k <> start_ts rq -> req_res_map st1 !! k = req_res_map st !! k).
Proof.
  intros Hwf He. cbn zeta.
  pose proof (EnqueueFacts.enqueue_chunk_store env _ _ _ _ _ _ He) as Hs.
  rewrite EnqueueFacts.register_chunk_snd in Hs. rewrite Hs.
  split_and!.
  - apply StoreFacts.in_insert_iff; [done|]. by left.
  - intros e Hin Hk. apply StoreFacts.in_insert_iff; [done|]. by right.
  - intros e Hin. apply StoreFacts.in_insert_iff in Hin as [->|[Hin _]]; auto.
  - intros a i v Ha Hb Hi Hj Hne Hin.
    apply StoreFacts.in_insert_iff; [done|]. right. split; [done|].
    cbn [fst]. intros E.
    apply (MoreFacts.chunk_key_inj_both env) in E as [-> ->]; try done.
    by destruct Hne.
  - intros k Hk. by eapply MoreFacts.enqueue_chunk_lookup_ne.
Qed.

(** X4.  The last chunk of a batch puts the request id at the back of
    exactly one queue, the one its collection name hashes to; what was
    queued before keeps its place, the other queues are untouched, the
    counter grows by the chunk sequence plus one, and the record is marked
    complete. *)
Theorem X4_last_chunk_queued_at_back now aliased st rq rs st1 :
  last_chunk_aggregate rq = true ->
  enqueue_chunk env now aliased st rq rs = Some st1 ->
  let seq :=
    match req_res_map st !! start_ts rq with
    | None => 0
    | Some r0 => num_chunks r0
    end in
  exists coll rq' q l,
    get_collection_name env (set_body rq EmptyString) = Some (coll, rq') /\
    queue_of env st coll = Some q /\
    queues st !! q = Some l /\
    queues st1 !! q = Some (l ++ [start_ts rq]) /\
    (forall q', q' <> q -> queues st1 !! q' = queues st !! q') /\
    length (queues st1) = length (queues st) /\
    queued_writes st1 = wrap_int64 (queued_writes st + wrap32 (seq + 1)) /\
    exists r, req_res_map st1 !! start_ts rq = Some r /\ is_complete r = true.
Proof.
  intros Hlast He. cbn zeta.
  pose proof (EnqueueFacts.enqueue_chunk_complete env _ _ _ _ _ _ Hlast He) as Hc.
  rewrite MoreFacts.enqueue_chunk_cases, Hlast in He.
  destruct (EnqueueFacts.persist_chunk_frame env now aliased st rq rs)
    as (F1 & F2 & F3 & _).
  pose proof (EnqueueFacts.persist_chunk_snd env now aliased st rq rs) as Hsnd.
  rewrite EnqueueFacts.register_chunk_snd in Hsnd.
  apply EnqueueFacts.complete_request_inv in He
    as (coll & rq' & q & l & Ec & Hq & Hl & Hqs & Hqw & _).
  exists coll, rq', q, l. rewrite F1 in Hl, Hqs. rewrite F2, Hsnd in Hqw.
  assert (q < length (queues st))%nat as Hlt by (by eapply lookup_lt_Some).
  split_and!; try done.
  - unfold queue_of in *. by rewrite <- F3.
  - rewrite Hqs. by apply list_lookup_insert_eq.
  - intros q' Hq'. rewrite Hqs. by apply list_lookup_insert_ne.
  - rewrite Hqs. apply length_insert.
Qed.

(** X5.  On an indexer with at least one worker, [enqueue] has undefined
    behaviour in one case only: the chunk is the last of its batch, its
    request has no [collection] parameter, and its route hash has no
    route. *)
Theorem X5_enqueue_undefined_iff now aliased st rq rs :
  consistent st -> num_threads st <> 0%nat ->
  enqueue_chunk env now aliased st rq rs = None <->
  last_chunk_aggregate rq = true /\
  default EmptyString (params rq !! "collection"%string) = EmptyString /\
  get_route env (route_hash rq) = None.
Proof.
  intros (_ & Hlen & _) Hn. rewrite MoreFacts.enqueue_chunk_cases.
  destruct (EnqueueFacts.persist_chunk_frame env now aliased st rq rs)
    as (F1 & _ & F3 & _).
  destruct (last_chunk_aggregate rq); [|split; [done|by intros [? _]]].
  destruct (get_collection_name env (set_body rq EmptyString)) as [[coll rq']|] eqn:Ec.
  - destruct (EnqueueFacts.complete_request_defined env
                (aliased || bool_decide (req_res_map st !! start_ts rq = None))
                (fst (persist_chunk env now aliased st rq rs))
                (set_body rq EmptyString)
                (snd (persist_chunk env now aliased st rq rs)) coll rq' Ec)
      as [st1 ->]; [congruence|congruence|].
    split; [done|]. intros (_ & Hp & Hr). exfalso.
    unfold get_collection_name in Ec. cbn [params route_hash set_body] in Ec.
    rewrite Hp, Hr in Ec. by destruct (decide (EmptyString = EmptyString)).
  - split.
    + intros _. split; [done|]. unfold get_collection_name in Ec.
      cbn [params route_hash set_body] in Ec.
      destruct (decide (default EmptyString (params rq !! "collection"%string)
                        = EmptyString)) as [Hp|]; [|done].
      split; [done|]. by destruct (get_route env (route_hash rq)).
    + intros _. unfold complete_request. by rewrite Ec.
Qed.

(** X6.  When the last chunk of a request without [collection] parameter
    is enqueued, the body has already been cleared: the queue is chosen
    from the name found in the empty body for the create-collection
    route, and from the empty name for any other route, whatever the body
    of the request was. *)
Theorem X6_shard_chosen_after_body_is_cleared now aliased st rq rs st1 rpath :
  last_chunk_aggregate rq = true ->
  default EmptyString (params rq !! "collection"%string) = EmptyString ->
  get_route env (route_hash rq) = Some rpath ->
  enqueue_chunk env now aliased st rq rs = Some st1 ->
  let coll :=
    if decide (handler rpath = post_create_collection)
    then default EmptyString (json_name env EmptyString)
    else EmptyString in
  exists q l,
    queue_of env st coll = Some q /\ queues st !! q = Some l /\
    queues st1 !! q = Some (l ++ [start_ts rq]).
Proof.
  intros Hlast Hp Hr He. cbn zeta.
  rewrite MoreFacts.enqueue_chunk_cases, Hlast in He.
  destruct (EnqueueFacts.persist_chunk_frame env now aliased st rq rs)
    as (F1 & _ & F3 & _).
  apply EnqueueFacts.complete_request_inv in He
    as (coll & rq' & q & l & Ec & Hq & Hl & Hqs & _).
  unfold get_collection_name in Ec. cbn [params route_hash body set_body] in Ec.
  rewrite Hp, Hr in Ec. destruct (decide (EmptyString = EmptyString)); [|done].
  injection Ec as <- _. exists q, l. rewrite F1 in Hl, Hqs.
  split_and!; [|done|].
  - unfold queue_of in *. by rewrite <- F3.
  - rewrite Hqs. apply list_lookup_insert_eq. by eapply lookup_lt_Some.
Qed.

(** X7.  The last chunk of an old serialized request (id 0) cannot get
    past the wait on its own: its own record is in the registry, so for
    as long as no other thread changes the registry the call keeps
    polling and sends nothing. *)
Theorem X7_old_serialized_request_needs_a_worker
    now aliased sched fuel st rq rs st1 :
  start_ts rq = 0 -> last_chunk_aggregate rq = true ->
  enqueue_chunk env now aliased st rq rs = Some st1 ->
  (forall j s, req_res_map (sched j s) = req_res_map s) ->
  enqueue env now aliased sched fuel st rq rs = Blocked (polled sched 0 fuel st1).
Proof.
  intros Hid Hlast He Hs. unfold enqueue. rewrite He, Hlast, Hid.
  rewrite bool_decide_eq_true_2 by done. cbn [andb].
  destruct (EnqueueFacts.enqueue_chunk_complete env _ _ _ _ _ _ Hlast He)
    as (r & Hr & _).
  pose proof (EnqueueFacts.wait_registry_empty_spec sched fuel 0 st1) as Hw.
  destruct (wait_registry_empty sched fuel 0 st1) as [st'| |st'].
  - destruct Hw as (n & _ & -> & Hempty & _).
    rewrite MoreFacts.polled_registry in Hempty by done.
    rewrite Hempty, lookup_empty in Hr. done.
  - done.
  - by destruct Hw as [-> _].
Qed.

(** X8.  One turn of a worker's loop takes the request id at the front of
    its own queue, leaves the rest of that queue in order and the other
    queues as they are, and erases the record of that request. *)
Theorem X8_worker_takes_front_of_queue i quit st req_id rest r :
  queues st !! i = Some (req_id :: rest) ->
  req_res_map st !! req_id = Some r ->
  exists st',
    worker_iteration env i quit st = Some st' /\
    queues st' !! i = Some rest /\
    (forall j, j <> i -> queues st' !! j = queues st !! j) /\
    req_res_map st' = delete req_id (req_res_map st).
Proof.
  intros Hq Hr. unfold worker_iteration. rewrite Hq.
  rewrite (CleanupFacts.process_request_eq env quit _ req_id r) by done.
  cbn [mbind option_bind]. eexists. split; [reflexivity|].
  cbn [queues req_res_map add_events set_queues]. split_and!; [| |done].
  - apply list_lookup_insert_eq. by eapply lookup_lt_Some.
  - intros j Hj. by apply list_lookup_insert_ne.
Qed.

(** X9.  The garbage collector erases an expired record but leaves its id
    in the worker queue and its writes in [queued_writes]; the worker
    that later takes the id from the queue finds no record and
    dereferences the null handles of the one [operator[]] creates. *)
Theorem X9_pruned_request_stays_queued seconds_elapsed clock st i req_id rest r quit :
  GC_INTERVAL_SECONDS env < seconds_elapsed ->
  req_res_map st !! req_id = Some r ->
  GC_PRUNE_MAX_SECONDS env < wrap64 (clock req_id - batch_begin_ts r) ->
  queues st !! i = Some (req_id :: rest) ->
  let st' := gc_tick env seconds_elapsed clock st in
  req_res_map st' !! req_id = None /\
  queues st' !! i = Some (req_id :: rest) /\
  queued_writes st' = queued_writes st /\
  worker_iteration env i quit st' = None.
Proof.
  intros Hdue Hr Hold Hq. cbn zeta. unfold gc_tick.
  apply Z.ltb_lt in Hdue. rewrite Hdue. unfold gc_scan.
  assert (filter (fun kr => gc_expired env clock (fst kr) (snd kr) = false)
            (req_res_map st) !! req_id = None) as Hnone.
  { apply map_lookup_filter_None. right. intros r' Hr'. simpl.
    assert (r' = r) as -> by congruence. unfold gc_expired.
    apply Z.ltb_lt in Hold. by rewrite Hold. }
  cbn [req_res_map queues queued_writes set_store set_req_res_map].
  split_and!; try done.
  unfold worker_iteration. cbn [queues set_store set_req_res_map]. rewrite Hq.
  unfold process_request. cbn [req_res_map set_queues set_store set_req_res_map].
  by rewrite Hnone.
Qed.

(** X10.  While a worker drains a request through its route it sends one
    STREAM_RESPONSE message for every chunk it applies when the request
    is live and the route is not [async_res], and no message at all
    otherwise; it never sends REQUEST_PROCEED. *)
Theorem X10_one_response_per_applied_chunk quit st req_id r rpath :
  get_route env (route_hash (req r)) = Some rpath ->
  let n := applied_count quit 0
             (length (req_chunks env st req_id (next_chunk_index r))) in
  let ms := sent (d_events (drain_request env quit st req_id r)) in
  length ms = (if is_alive (res r) && negb (async_res rpath) then n else 0)%nat /\
  Forall (fun m => exists rs, m = STREAM_RESPONSE_MESSAGE req_id rs) ms.
Proof.
  intros Hroute. cbn zeta. unfold drain_request.
  rewrite Hroute, DrainFacts.drain_while_prefix.
  change (Store.while_prefix _ (request_iterator _ _ _ _))
    with (req_chunks env st req_id (next_chunk_index r)).
  destruct (MoreFacts.drain_found_sent env (get_req_prefix_key env req_id) rpath
              (is_alive (res r)) quit req_id
              (req_chunks env st req_id (next_chunk_index r)) 0 (drain_init st r))
    as (ms & S & L & A).
  { intros e He. by eapply DrainFacts.while_prefix_all. }
  rewrite S. cbn [drain_init d_events sent omap list_omap app]. done.
Qed.


(** X12.  No two chunks share a key: the key determines the request id
    and the chunk sequence it was built from. *)
Theorem X12_chunk_key_determines_chunk a b i j :
  is_uint64 a -> is_uint64 b -> is_uint32 i -> is_uint32 j ->
  chunk_key env a i = chunk_key env b j -> a = b /\ i = j.
Proof. apply MoreFacts.chunk_key_inj_both. Qed.

(** X13.  [load_state] replaces [queued_writes] by the value of the
    document, never overwrites a record the indexer already holds, and
    does not touch the store. *)
Theorem X13_load_state_keeps_existing_records st state st' :
  load_state env st state = Some st' ->
  queued_writes st' = wrap_int64 (s_queued_writes state) /\
  (forall k r, req_res_map st !! k = Some r -> req_res_map st' !! k = Some r) /\
  store st' = store st.
Proof.
  unfold load_state. intros H.
  destruct (restore_entries env _ _) as [[st1 qids]|] eqn:E; [|done].
  cbn [mbind option_bind] in H. injection H as <-.
  destruct (MoreFacts.restore_entries_keeps env _ _ _ _ _ E) as (A1 & A2 & A3 & _).
  cbn [queued_writes req_res_map store set_queues set_queued_writes] in *.
  by split_and!.
Qed.

(** X14.  The snapshot document holds the counter and exactly one entry
    for every record, under the decimal string of its request id, from
    which [std::stoull] gets the id back, the id being a [uint64_t]; it
    holds no other entry. *)
Theorem X14_snapshot_entries st :
  s_queued_writes (serialize_state st) = queued_writes st /\
  (forall k,
     s_req_res_map (serialize_state st) !! Dec.to_string k =
       serialize_entry <$> req_res_map st !! k) /\
  (forall s e,
     s_req_res_map (serialize_state st) !! s = Some e ->
     exists k r,
       s = Dec.to_string k /\ (is_uint64 k -> Dec.stoull s = Some k) /\
       req_res_map st !! k = Some r /\ e = serialize_entry r).
Proof.
  unfold serialize_state. cbn [s_queued_writes s_req_res_map]. split_and!.
  - done.
  - intros k. by rewrite lookup_kmap, lookup_fmap by apply _.
  - intros s e H. apply lookup_kmap_Some in H as (k & -> & H); [|apply _].
    apply lookup_fmap_Some in H as (r & <- & Hr).
    exists k, r. split_and!; try done. apply DecFacts.stoull_to_string.
Qed.

(** X15.  A GC pass that follows a due pass with the same clock readings
    finds nothing more to remove. *)
Theorem X15_gc_second_pass_removes_nothing e1 e2 clock st :
  GC_INTERVAL_SECONDS env < e1 ->
  gc_tick env e2 clock (gc_tick env e1 clock st) = gc_tick env e1 clock st.
Proof.
  intros Hdue. unfold gc_tick at 2 3. apply Z.ltb_lt in Hdue. rewrite Hdue.
  unfold gc_tick. destruct (GC_INTERVAL_SECONDS env <? e2); [|done].
  unfold gc_scan at 1.
  set (st1 := gc_scan env clock st).
  assert (filter (fun kr => gc_expired env clock (fst kr) (snd kr) = false)
            (req_res_map st1) = req_res_map st1) as Hreg.
  { apply map_eq. intros k. apply option_eq. intros r.
    rewrite map_lookup_filter_Some. split; [by intros [? _]|].
    intros Hr. split; [done|]. unfold st1, gc_scan in Hr.
    cbn [req_res_map set_store set_req_res_map] in Hr.
    by apply map_lookup_filter_Some in Hr as [_ Hr]. }
  assert (List.filter (fun kr => gc_expired env clock (fst kr) (snd kr))
            (map_to_list (req_res_map st1)) = []) as Hexp.
  { apply StoreFacts.filter_all_false. intros [k r] Hin.
    apply list_elem_of_In, elem_of_map_to_list in Hin.
    unfold st1, gc_scan in Hin. cbn [req_res_map set_store set_req_res_map] in Hin.
    by apply map_lookup_filter_Some in Hin as [_ Hin]. }
  rewrite Hreg, Hexp. cbn [fold_left]. by destruct st1.
Qed.

(** X16.  [get_collection_name] returns its request with the name written
    to the [collection] parameter and no other parameter or field changed:
    the request itself when the parameter was not empty.  Asked again
    about the request it returned, it gives the same answer and changes
    nothing. *)
Theorem X16_collection_name_is_kept rq coll rq' :
  get_collection_name env rq = Some (coll, rq') ->
  rq' = {| start_ts := start_ts rq; route_hash := route_hash rq;
           params := <["collection"%string := coll]> (params rq);
           body := body rq; last_chunk_aggregate := last_chunk_aggregate rq;
           log_index := log_index rq; proceed_req := proceed_req rq |} /\
  (default EmptyString (params rq !! "collection"%string) <> EmptyString ->
   rq' = rq) /\
  params rq' !! "collection"%string = Some coll /\
  (forall key, key <> "collection"%string -> params rq' !! key = params rq !! key) /\
  start_ts rq' = start_ts rq /\ route_hash rq' = route_hash rq /\
  body rq' = body rq /\
  last_chunk_aggregate rq' = last_chunk_aggregate rq /\
  log_index rq' = log_index rq /\ proceed_req rq' = proceed_req rq /\
  get_collection_name env rq' = Some (coll, rq').
Proof.
  intros H.
  destruct (SnapshotFacts.get_collection_name_cases env _ _ _ H) as [Eq Hne].
  split; [exact Eq|]. split; [intros Hp; by destruct (Hne Hp)|].
  clear Eq Hne. revert H. unfold get_collection_name.
  destruct (decide (default EmptyString (params rq !! "collection"%string)
                    = EmptyString)) as [Hp|Hp].
  - destruct (get_route env (route_hash rq)) as [rpath|] eqn:Hr; [|done].
    intros [= <- <-].
    cbn [params route_hash body start_ts last_chunk_aggregate log_index
           proceed_req set_params].
    rewrite lookup_insert_eq. cbn [default]. split_and!; try done.
    + intros key Hk. by rewrite lookup_insert_ne.
    + rewrite Hr. unfold id.
      destruct (decide (handler rpath = post_create_collection)) as [Hh|Hh];
        destruct (decide (_ = EmptyString)); try done;
        unfold set_params; cbn; by rewrite insert_insert_eq.
  - intros [= <- <-]. split_and!; try done.
    + destruct (params rq !! "collection"%string); [done|]. by destruct Hp.
    + by destruct (decide _).
Qed.

End extras.

Lemma X1_invariant_of_reachable_states_witness : consistent Demo.one_enqueued.
Proof.
  apply (X1_invariant_of_reachable_states Demo.env 2).
  apply rtc_once.
  apply (step_enqueue Demo.env 1000 false (init 2) (Demo.request 5 1 true "a")
           (Demo.response true)).
  vm_compute. reflexivity.
Defined.

Lemma X2_non_last_chunk_witness :
  exists st1,
    enqueue_chunk Demo.env 1000 false (init 2) (Demo.request 5 1 false "a")
      (Demo.response true) = Some st1 /\
    enqueue Demo.env 1000 false Demo.others_idle 0 (init 2)
      (Demo.request 5 1 false "a") (Demo.response true) =
      Done (add_events st1 [EvSend (REQUEST_PROCEED_MESSAGE 5)]) /\
    queues st1 = [ []; [] ] /\ queued_writes st1 = 0.
Proof.
  destruct (X2_non_last_chunk Demo.env 1000 false Demo.others_idle 0 (init 2)
              (Demo.request 5 1 false "a") (Demo.response true))
    as (st1 & H1 & H2 & H3 & H4 & _).
  - reflexivity.
  - exists st1. split_and!; [exact H1|exact H2|exact H3|exact H4].
Defined.

Lemma X3_enqueue_persists_and_keeps_witness :
  In (chunk_key Demo.env 5 0, to_json (Demo.request 5 1 true "a"))
     (store Demo.one_enqueued).
Proof.
  destruct (X3_enqueue_persists_and_keeps Demo.env 1000 false (init 2)
              (Demo.request 5 1 true "a") (Demo.response true) Demo.one_enqueued)
    as (H & _).
  - reflexivity.
  - vm_compute. reflexivity.
  - exact H.
Defined.

Lemma X4_last_chunk_queued_at_back_witness :
  queued_writes Demo.one_enqueued = 1 /\
  exists r, req_res_map Demo.one_enqueued !! 5 = Some r /\ is_complete r = true.
Proof.
  destruct (X4_last_chunk_queued_at_back Demo.env 1000 false (init 2)
              (Demo.request 5 1 true "a") (Demo.response true) Demo.one_enqueued)
    as (coll & rq' & q & l & _ & _ & _ & _ & _ & _ & H1 & H2).
  - reflexivity.
  - vm_compute. reflexivity.
  - split; [exact H1|exact H2].
Defined.

Lemma X5_enqueue_undefined_iff_witness :
  enqueue_chunk Demo.env 1000 false (init 2) (Demo.anonymous_request 5 9)
    (Demo.response true) = None.
Proof.
  apply (X5_enqueue_undefined_iff Demo.env 1000 false (init 2)
           (Demo.anonymous_request 5 9) (Demo.response true)).
  - apply InvariantFacts.init_consistent.
  - discriminate.
  - split_and!; reflexivity.
Defined.

Lemma X6_shard_chosen_after_body_is_cleared_witness :
  json_name Demo.env_named (body (Demo.anonymous_request 5 2)) = Some "books"%string /\
  queue_of Demo.env_named (init 2) "books" = Some 1%nat /\
  queues Demo.create_enqueued !! 0%nat = Some [5].
Proof.
  destruct (X6_shard_chosen_after_body_is_cleared Demo.env_named 1000 false (init 2)
              (Demo.anonymous_request 5 2) (Demo.response true)
              Demo.create_enqueued
              {| handler := post_create_collection; async_res := false |})
    as (q & l & H1 & H2 & H3).
  - reflexivity.
  - reflexivity.
  - reflexivity.
  - vm_compute. reflexivity.
  - vm_compute in H1. injection H1 as <-.
    vm_compute in H2. injection H2 as <-.
    split_and!; [reflexivity|reflexivity|exact H3].
Defined.

Lemma X7_old_serialized_request_needs_a_worker_witness :
  enqueue Demo.env 1000 false Demo.others_idle 3 (init 2)
    (Demo.request 0 1 true "a") (Demo.response true) =
  Blocked (polled Demo.others_idle 0 3 Demo.old_serialized_enqueued).
Proof.
  apply (X7_old_serialized_request_needs_a_worker Demo.env 1000 false
           Demo.others_idle 3 (init 2) (Demo.request 0 1 true "a")
           (Demo.response true) Demo.old_serialized_enqueued).
  - reflexivity.
  - reflexivity.
  - vm_compute. reflexivity.
  - intros j s. reflexivity.
Defined.

Lemma X8_worker_takes_front_of_queue_witness :
  exists st',
    worker_iteration Demo.env 1 (fun _ => false) (Demo.two_chunks 1 true) = Some st' /\
    queues st' !! 1%nat = Some [] /\
    req_res_map st' = delete 5 (req_res_map (Demo.two_chunks 1 true)).
Proof.
  destruct (X8_worker_takes_front_of_queue Demo.env 1 (fun _ => false)
              (Demo.two_chunks 1 true) 5 [] (Demo.record 5 1 2 0 true true))
    as (st' & H1 & H2 & _ & H4).
  - reflexivity.
  - reflexivity.
  - exists st'. split_and!; [exact H1|exact H2|exact H4].
Defined.

Lemma X9_pruned_request_stays_queued_witness :
  queues (gc_tick Demo.env 61 (fun _ => 5000) Demo.two_requests) !! 1%nat = Some [5] /\
  worker_iteration Demo.env 1 (fun _ => false)
    (gc_tick Demo.env 61 (fun _ => 5000) Demo.two_requests) = None.
Proof.
  destruct (X9_pruned_request_stays_queued Demo.env 61 (fun _ => 5000)
              Demo.two_requests 1 5 [] (Demo.record 5 1 1 0 true false)
              (fun _ => false)) as (_ & H2 & _ & H4).
  - reflexivity.
  - vm_compute. reflexivity.
  - reflexivity.
  - reflexivity.
  - split; [exact H2|exact H4].
Defined.

Lemma X10_one_response_per_applied_chunk_witness :
  length (sent (d_events (drain_request Demo.env (fun _ => false)
                            (Demo.two_chunks 1 true) 5
                            (Demo.record 5 1 2 0 true true)))) = 2%nat.
Proof.
  destruct (X10_one_response_per_applied_chunk Demo.env (fun _ => false)
              (Demo.two_chunks 1 true) 5 (Demo.record 5 1 2 0 true true)
              {| handler := other_handler 0; async_res := false |}) as [H _].
  - reflexivity.
  - rewrite H. reflexivity.
Defined.


Lemma X12_chunk_key_determines_chunk_witness :
  chunk_key Demo.env 5 1 <> chunk_key Demo.env 6 1.
Proof.
  intros E.
  destruct (X12_chunk_key_determines_chunk Demo.env 5 6 1 1) as [H _].
  - unfold is_uint64. lia.
  - unfold is_uint64. lia.
  - unfold is_uint32. lia.
  - unfold is_uint32. lia.
  - exact E.
  - discriminate H.
Defined.

Lemma X13_load_state_keeps_existing_records_witness :
  queued_writes Demo.reloaded = 1 /\
  req_res_map Demo.reloaded !! 6 = Some (Demo.anonymous_record 6 1).
Proof.
  destruct (X13_load_state_keeps_existing_records Demo.env
              (Demo.holding 6 (Demo.anonymous_record 6 1))
              (serialize_state Demo.two_requests) Demo.reloaded)
    as (H1 & H2 & _).
  - vm_compute. reflexivity.
  - split.
    + rewrite H1. reflexivity.
    + apply H2. reflexivity.
Defined.

Lemma X15_gc_second_pass_removes_nothing_witness :
  gc_tick Demo.env 100 (fun _ => 5000)
    (gc_tick Demo.env 61 (fun _ => 5000) Demo.two_requests) =
  gc_tick Demo.env 61 (fun _ => 5000) Demo.two_requests.
Proof.
  apply (X15_gc_second_pass_removes_nothing Demo.env 61 100 (fun _ => 5000)
           Demo.two_requests).
  reflexivity.
Defined.

Lemma X16_collection_name_is_kept_witness :
  exists rq',
    get_collection_name Demo.env (Demo.anonymous_request 5 1)
      = Some (EmptyString, rq') /\
    rq' = {| start_ts := 5; route_hash := 1;
             params := {[ "collection"%string := EmptyString ]}; body := "{}";
             last_chunk_aggregate := true; log_index := 1;
             proceed_req := false |} /\
    get_collection_name Demo.env rq' = Some (EmptyString, rq').
Proof.
  eexists. split; [vm_compute; reflexivity|].
  match goal with
  | |- ?r = _ /\ _ =>
      destruct (X16_collection_name_is_kept Demo.env (Demo.anonymous_request 5 1)
                  EmptyString r) as (H1 & _ & _ & _ & _ & _ & _ & _ & _ & _ & H6)
  end.
  - vm_compute. reflexivity.
  - split; [|exact H6]. rewrite H1. reflexivity.
Defined.

End Extras.
